(** * Batch processing example (examples/public-api/python/03_batch_processing.py)

    A shallow embedding of the batch example: the [BatchItem] record, the
    retrying [process_item] worker, the thread pool that [main] drives, and
    the summary printed at the end.

    - The remote client is an oracle: for every item and every attempt it
      says what the two remote calls of the [try] block do (return, raise
      RateLimitError, raise another Exception).  Every remote call returns
      or raises (the wait has a timeout), and what it raises is an
      [Exception], so [process_item] itself never raises.
    - [process_item] is embedded twice: as a function, and statement by
      statement as the program of a worker thread, so that the states in
      between are there when several workers interleave.  The two are proved
      to agree.
    - [ThreadPoolExecutor] is a FIFO work queue served by at most
      [max_workers] threads, each running one work item at a time; a run of
      the pool is a sequence of [Action]s, any interleaving of them.
    - Python floats are binary64, as Rocq's primitive floats are. *)

From Stdlib Require Import String ZArith Floats Lia DecimalString.
From stdpp Require Import base tactics option list.
From Equations.Prop Require Import Equations Logic.

Local Open Scope string_scope.
Local Open Scope nat_scope.

(** ** Configuration (lines 28-31) *)

Definition CONCURRENCY : nat := 5.
Definition RETRY_DELAY : float := 1%float.
Definition MAX_RETRIES : nat := 3.

(** ** Python values used by the script *)

(** [float(n)] for a Python int that fits 63 bits: exact below 2^53 and
    correctly rounded above, as CPython's int-to-float conversion is. *)
Definition float_of_nat (n : nat) : float :=
  PrimFloat.of_uint63 (Uint63.of_Z (Z.of_nat n)).

(** [str(n)] for a non-negative Python int. *)
Definition str_of_nat (n : nat) : string :=
  NilZero.string_of_uint (Nat.to_uint n).

Section Batch.

(** [dict[str, Any]]: the payload of an item and the outputs of an execution
    are opaque to the script. *)
Context {Dict : Type}.

(** ** [BatchItem] (lines 46-55) *)

Record BatchItem : Type := mkBatchItem {
  index : nat;
  data : Dict;
  execution_id : option string;
  status : string;
  result : option Dict;
  error : option string;
  retries : nat
}.

(** [BatchItem(index=i, data=data)]: the other fields take their defaults. *)
Definition new_item (i : nat) (d : Dict) : BatchItem :=
  mkBatchItem i d None "pending" None None 0.

Definition set_execution_id (v : string) (it : BatchItem) : BatchItem :=
  mkBatchItem (index it) (data it) (Some v) (status it) (result it) (error it) (retries it).
Definition set_status (v : string) (it : BatchItem) : BatchItem :=
  mkBatchItem (index it) (data it) (execution_id it) v (result it) (error it) (retries it).
Definition set_result (v : option Dict) (it : BatchItem) : BatchItem :=
  mkBatchItem (index it) (data it) (execution_id it) (status it) v (error it) (retries it).
Definition set_error (v : string) (it : BatchItem) : BatchItem :=
  mkBatchItem (index it) (data it) (execution_id it) (status it) (result it) (Some v) (retries it).
Definition set_retries (v : nat) (it : BatchItem) : BatchItem :=
  mkBatchItem (index it) (data it) (execution_id it) (status it) (result it) (error it) v.

(** ** The remote client *)

(** The dictionary returned by [wait_for_completion]: [result["status"]],
    [result.get("outputs")] and [result.get("error")]. *)
Record WaitResult : Type := mkWaitResult {
  r_status : string;
  r_outputs : option Dict;
  r_error : option string
}.

(** What [client.executions.wait_for_completion] (line 69) does. *)
Inductive Waited : Type :=
| WaitRateLimit                 (* raises RateLimitError *)
| WaitError (e : string)        (* raises another Exception; [e] is [str(e)] *)
| WaitReturn (r : WaitResult).

(** One pass through the [try] block (lines 62-80): what
    [client.workflows.execute] (line 64) does and, when it returns an
    execution id, what the wait does. *)
Inductive Attempt : Type :=
| ExecRateLimit                 (* raises RateLimitError *)
| ExecError (e : string)        (* raises another Exception; [e] is [str(e)] *)
| ExecReturn (eid : string) (w : Waited).

(** The unit of work as one item sees it: the outcome of its n-th attempt. *)
Definition Script : Type := nat -> Attempt.

(** ** [process_item] (lines 58-96) *)

(** Line 86: [RETRY_DELAY * (2 ** (item.retries - 1))], computed right after
    [item.retries += 1], so with [r >= 1] and an integer power. *)
Definition backoff (r : nat) : float :=
  (RETRY_DELAY * float_of_nat (2 ^ (r - 1)))%float.

(** Lines 75-80, after the wait returned [r]. *)
Definition finish_wait (r : WaitResult) (it : BatchItem) : BatchItem :=
  if String.eqb (r_status r) "completed"
  then set_result (r_outputs r) (set_status "completed" it)
  else set_error (default "Unknown error" (r_error r)) (set_status "failed" it).

(** Lines 89-90. *)
Definition rate_limit_exhausted (it : BatchItem) : BatchItem :=
  set_error ("Rate limited after " ++ str_of_nat MAX_RETRIES ++ " retries")
            (set_status "failed" it).

(** Lines 93-94. *)
Definition fail_with (e : string) (it : BatchItem) : BatchItem :=
  set_error e (set_status "failed" it).

(** Lines 65-66. *)
Definition started (eid : string) (it : BatchItem) : BatchItem :=
  set_status "running" (set_execution_id eid it).

(** How control leaves the [try] block of lines 62-80, with the item as the
    block mutated it so far. *)
Inductive TryExit : Type :=
| Fell (it : BatchItem)                   (* ran to the end of the block *)
| RaisedRateLimit (it : BatchItem)        (* [except RateLimitError] *)
| Raised (e : string) (it : BatchItem).   (* [except Exception as e] *)

Definition try_block (a : Attempt) (it : BatchItem) : TryExit :=
  match a with
  | ExecRateLimit => RaisedRateLimit it
  | ExecError e => Raised e it
  | ExecReturn eid w =>
      let it := started eid it in
      match w with
      | WaitRateLimit => RaisedRateLimit it
      | WaitError e => Raised e it
      | WaitReturn r => Fell (finish_wait r it)
      end
  end.

(** [process_item script it n] is the call [process_item(client, item,
    workflow_id)] made when the client is about to serve the item's [n]-th
    attempt.  It returns the item as mutated and the delays slept, oldest
    first.  The recursion of line 88 is bounded by [MAX_RETRIES - retries]. *)
Equations? process_item (script : Script) (it : BatchItem) (n : nat)
  : BatchItem * list float by wf (MAX_RETRIES - retries it) lt :=
  process_item script it n with inspect (try_block (script n) it) => {
    | exist _ (Fell it1) _ := (it1, []);
    | exist _ (Raised e it1) _ := (fail_with e it1, []);
    | exist _ (RaisedRateLimit it1) Hexit with lt_dec (retries it1) MAX_RETRIES => {
        | left _ :=
            let it2 := set_retries (retries it1 + 1) it1 in
            let delay := backoff (retries it2) in
            let '(res, slept) := process_item script it2 (n + 1) in
            (res, delay :: slept);
        | right _ := (rate_limit_exhausted it1, []) } }.
Proof.
  assert (retries it1 = retries it).
  { destruct (script n) as [| e | eid [| e | r]]; simpl in Hexit; inversion Hexit;
      reflexivity. }
  simpl. lia.
Qed.

End Batch.

Arguments BatchItem : clear implicits.
Arguments WaitResult : clear implicits.
Arguments Waited : clear implicits.
Arguments Attempt : clear implicits.
Arguments Script : clear implicits.
Arguments TryExit : clear implicits.

(** ** One worker thread, statement by statement

    A worker running [process_item] on its item is at one of the lines below.
    The locations that follow a remote call carry what that call produced. *)

Inductive Pc {Dict : Type} : Type :=
| L64                                        (* calling [client.workflows.execute] *)
| L65 (eid : string) (w : Waited Dict)       (* [item.execution_id = ...] *)
| L66 (w : Waited Dict)                      (* [item.status = "running"] *)
| L69 (w : Waited Dict)                      (* in [wait_for_completion] *)
| L75 (r : WaitResult Dict)                  (* [if result["status"] == "completed"] *)
| L76 (r : WaitResult Dict)                  (* [item.status = "completed"] *)
| L77 (r : WaitResult Dict)                  (* [item.result = result.get("outputs")] *)
| L79 (r : WaitResult Dict)                  (* [item.status = "failed"] *)
| L80 (r : WaitResult Dict)                  (* [item.error = result.get("error", ...)] *)
| L84                                        (* [if item.retries < MAX_RETRIES] *)
| L85                                        (* [item.retries += 1] *)
| L86                                        (* [delay = ...] *)
| L87 (delay : float)                        (* in [time.sleep(delay)] *)
| L88                                        (* the recursive call *)
| L89                                        (* [item.status = "failed"] *)
| L90                                        (* [item.error = f"Rate limited ..."] *)
| L93 (e : string)                           (* [item.status = "failed"] *)
| L94 (e : string)                           (* [item.error = str(e)] *)
| L96.                                       (* [return item] *)
Arguments Pc : clear implicits.

Record Thread {Dict : Type} : Type := mkThread {
  t_pc : Pc Dict;
  t_attempt : nat       (* how many attempts the client already served *)
}.
Arguments Thread : clear implicits.
Arguments mkThread {Dict} _ _.

Section Worker.
Context {Dict : Type}.
Implicit Types (it : BatchItem Dict) (script : Script Dict) (t : Thread Dict).

(** One statement of the worker; [None] at the [return]. *)
Definition thread_step script t it : option (Thread Dict * BatchItem Dict) :=
  let n := t_attempt t in
  let goto pc := mkThread pc n in
  match t_pc t with
  | L64 =>
      match script n with
      | ExecRateLimit => Some (goto L84, it)
      | ExecError e => Some (goto (L93 e), it)
      | ExecReturn eid w => Some (goto (L65 eid w), it)
      end
  | L65 eid w => Some (goto (L66 w), set_execution_id eid it)
  | L66 w => Some (goto (L69 w), set_status "running" it)
  | L69 w =>
      match w with
      | WaitRateLimit => Some (goto L84, it)
      | WaitError e => Some (goto (L93 e), it)
      | WaitReturn r => Some (goto (L75 r), it)
      end
  | L75 r =>
      if String.eqb (r_status r) "completed"
      then Some (goto (L76 r), it) else Some (goto (L79 r), it)
  | L76 r => Some (goto (L77 r), set_status "completed" it)
  | L77 r => Some (goto L96, set_result (r_outputs r) it)
  | L79 r => Some (goto (L80 r), set_status "failed" it)
  | L80 r => Some (goto L96, set_error (default "Unknown error" (r_error r)) it)
  | L84 =>
      if lt_dec (retries it) MAX_RETRIES
      then Some (goto L85, it) else Some (goto L89, it)
  | L85 => Some (goto L86, set_retries (retries it + 1) it)
  | L86 => Some (goto (L87 (backoff (retries it))), it)
  | L87 _ => Some (goto L88, it)
  | L88 => Some (mkThread L64 (n + 1), it)
  | L89 => Some (goto L90, set_status "failed" it)
  | L90 =>
      Some (goto L96,
            set_error ("Rate limited after " ++ str_of_nat MAX_RETRIES ++ " retries") it)
  | L93 e => Some (goto (L94 e), set_status "failed" it)
  | L94 e => Some (goto L96, set_error e it)
  | L96 => None
  end.

End Worker.

(** ** The thread pool and the loop of [main] (lines 137-161) *)

(** A [concurrent.futures.Future]: queued, being run by a worker, or done. *)
Inductive FState {Dict : Type} : Type :=
| FPending
| FRunning (t : Thread Dict)
| FFinished.
Arguments FState : clear implicits.

(** An entry of the [futures] dictionary: the future, the item it maps to
    (a reference into the heap) and whether [as_completed] has yielded it. *)
Record Future {Dict : Type} : Type := mkFuture {
  f_item : nat;
  f_state : FState Dict;
  f_yielded : bool
}.
Arguments Future : clear implicits.
Arguments mkFuture {Dict} _ _ _.

(** The [BatchItem] objects live in [heap]; the list [items] and the values of
    [futures] hold references to them, so a worker's mutation is seen through
    both.  [futures] is in insertion order, which is also the order of the
    pool's work queue. *)
Record State {Dict : Type} : Type := mkState {
  heap : list (BatchItem Dict);
  items : list nat;
  futures : list (Future Dict)
}.
Arguments State : clear implicits.
Arguments mkState {Dict} _ _ _.

Inductive Action : Type :=
| Submit                 (* [executor.submit(...)] for the next item (line 147) *)
| Dispatch               (* an idle worker takes the head of the work queue *)
| Work (k : nat)         (* the worker of future [k] runs one statement *)
| Collect (k : nat).     (* [as_completed] yields future [k]; lines 152-161 *)

Section Pool.
Context {Dict : Type}.
Implicit Types (it : BatchItem Dict) (s : State Dict) (f : Future Dict).

(** [client r] is what the remote service does for the item at reference [r]. *)
Variable client : nat -> Script Dict.
(** [max_workers]. *)
Variable concurrency : nat.

Definition is_pending f : bool :=
  match f_state f with FPending => true | _ => false end.
Definition is_running f : bool :=
  match f_state f with FRunning _ => true | _ => false end.
Definition is_finished f : bool :=
  match f_state f with FFinished => true | _ => false end.

(** Workers that hold a work item. *)
Definition busy s : nat := length (List.filter is_running (futures s)).

(** Lines 137-140. *)
Definition init (sample : list Dict) : State Dict :=
  mkState (imap new_item sample) (seq 0 (length sample)) [].

(** Lines 152-159, with [f] the future that [as_completed] yielded:
    [future.result()] is the item of the future, and it is stored back at
    its own index. *)
Definition collect f s : option (State Dict) :=
  res ← heap s !! f_item f;
  if index res <? length (items s)
  then Some (mkState (heap s) (<[index res := f_item f]> (items s)) (futures s))
  else (* IndexError, caught at line 157 *)
    Some (mkState
            (<[f_item f := fail_with "list assignment index out of range" res]> (heap s))
            (items s) (futures s)).

Definition set_future (k : nat) f s : State Dict :=
  mkState (heap s) (items s) (<[k := f]> (futures s)).

(** One step of the run; [None] when the action is not enabled.  [Submit]
    is enabled until every item was submitted, and [as_completed] starts only
    then; [Dispatch] needs a free worker and takes the oldest queued future. *)
Definition step (a : Action) s : option (State Dict) :=
  match a with
  | Submit =>
      r ← items s !! length (futures s);
      Some (mkState (heap s) (items s) (futures s ++ [mkFuture r FPending false]))
  | Dispatch =>
      if busy s <? concurrency then
        kf ← list_find (fun f => is_pending f) (futures s);
        Some (set_future kf.1 (mkFuture (f_item kf.2) (FRunning (mkThread L64 0)) false) s)
      else None
  | Work k =>
      f ← futures s !! k;
      match f_state f with
      | FRunning t =>
          it ← heap s !! f_item f;
          match thread_step (client (f_item f)) t it with
          | Some (t', it') =>
              Some (mkState (<[f_item f := it']> (heap s)) (items s)
                            (<[k := mkFuture (f_item f) (FRunning t') (f_yielded f)]>
                               (futures s)))
          | None => Some (set_future k (mkFuture (f_item f) FFinished (f_yielded f)) s)
          end
      | _ => None
      end
  | Collect k =>
      if length (futures s) =? length (items s) then
        f ← futures s !! k;
        if is_finished f && negb (f_yielded f) then
          s' ← collect f s;
          Some (set_future k (mkFuture (f_item f) FFinished true) s')
        else None
      else None
  end.

(** A schedule, step after step. *)
Fixpoint run (acts : list Action) s : option (State Dict) :=
  match acts with
  | [] => Some s
  | a :: acts => s' ← step a s; run acts s'
  end.

(** The [with] block is left once every future was yielded. *)
Definition final s : bool :=
  (length (futures s) =? length (items s)) && forallb (fun f => f_yielded f) (futures s).

(** The list [items] as [main] reads it: the objects behind the references. *)
Definition items_of s : list (BatchItem Dict) :=
  omap (fun r => heap s !! r) (items s).

End Pool.

(** ** Progress line and summary (lines 99-112 and 165-175) *)

Section Report.
Context {Dict : Type}.
Implicit Types (it : BatchItem Dict) (l : list (BatchItem Dict)).

(** [sum(1 for i in items if i.status == st)]. *)
Definition count_status (st : string) l : nat :=
  length (List.filter (fun it => String.eqb (status it) st) l).

Record Progress : Type := mkProgress {
  p_completed : nat; p_failed : nat; p_running : nat; p_pending : nat
}.

(** Lines 101-104; the elapsed time is left out. *)
Definition update_progress l : Progress :=
  mkProgress (count_status "completed" l) (count_status "failed" l)
             (count_status "running" l) (count_status "pending" l).

(** [(completed / total) * 100] of line 175: true division of two ints, which
    raises ZeroDivisionError ([None]) when [total] is zero. *)
Definition success_rate (completed total : nat) : option float :=
  if total =? 0 then None
  else Some (float_of_nat completed / float_of_nat total * 100)%float.

(** The decimal digits of [x * 10] rounded to an integer, ties to even, for a
    finite positive float [m * 2^e]: the rounding of the format [.1f]. *)
Definition tenths (m : positive) (e : Z) : Z :=
  let v := (10 * Z.pos m)%Z in
  if (0 <=? e)%Z then (v * 2 ^ e)%Z
  else
    let d := (2 ^ (- e))%Z in
    let q := (v / d)%Z in
    let r := (v mod d)%Z in
    match (2 * r ?= d)%Z with
    | Lt => q
    | Gt => (q + 1)%Z
    | Eq => if Z.even q then q else (q + 1)%Z
    end.

Definition str_of_Z (z : Z) : string := NilZero.string_of_uint (N.to_uint (Z.to_N z)).

(** [f"{x:.1f}"]. *)
Definition format_1f (x : float) : string :=
  let sign (s : bool) := if s then "-" else "" in
  match Prim2SF x with
  | S754_zero s => sign s ++ "0.0"
  | S754_infinity s => sign s ++ "inf"
  | S754_nan => "nan"
  | S754_finite s m e =>
      let t := tenths m e in
      sign s ++ str_of_Z (t / 10) ++ "." ++ str_of_Z (t mod 10)
  end.

(** What the summary prints: total, completed, failed and the success rate;
    [s_rate] is [None] when line 175 raises. *)
Record Summary : Type := mkSummary {
  s_total : nat; s_completed : nat; s_failed : nat; s_rate : option string
}.

Definition summary l : Summary :=
  let completed := List.filter (fun it => String.eqb (status it) "completed") l in
  let failed := List.filter (fun it => String.eqb (status it) "failed") l in
  mkSummary (length l) (length completed) (length failed)
            (format_1f <$> success_rate (length completed) (length l)).

End Report.

(** ** Sample data (lines 33-43) *)

(** A row of [SAMPLE_DATA]: a dictionary with string keys and values. *)
Definition Row : Type := list (string * string).

Definition person (name email department : string) : Row :=
  [("name", name); ("email", email); ("department", department)].

(** Lines 34-43. *)
Definition SAMPLE_DATA : list Row :=
  [ person "Alice Johnson" "alice@example.com" "Engineering";
    person "Bob Smith" "bob@example.com" "Marketing";
    person "Carol Williams" "carol@example.com" "Sales";
    person "David Brown" "david@example.com" "Engineering";
    person "Eva Martinez" "eva@example.com" "Support";
    person "Frank Lee" "frank@example.com" "Marketing";
    person "Grace Chen" "grace@example.com" "Engineering";
    person "Henry Davis" "henry@example.com" "Sales" ].

(** * Vocabulary of the specification

    Names for what the claims talk about: kinds of attempts, the item a worker
    will return from where it stands, the invariant of a run and a measure of
    what is left of it. *)

Section Vocabulary.
Context {Dict : Type}.
Implicit Types (it : BatchItem Dict) (script : Script Dict) (t : Thread Dict).
Implicit Types (s : State Dict) (f : Future Dict).

(** The handler of lines 82-90, entered with the item [it] and attempt [n]. *)
Definition on_rate_limit script it n : BatchItem Dict * list float :=
  if lt_dec (retries it) MAX_RETRIES then
    let it2 := set_retries (retries it + 1) it in
    let '(res, slept) := process_item script it2 (n + 1) in
    (res, backoff (retries it2) :: slept)
  else (rate_limit_exhausted it, []).

(** The two terminal states of an item, and the two others. *)
Definition terminal (st : string) : Prop := st = "completed" \/ st = "failed".
Definition unfinished (st : string) : Prop := st = "pending" \/ st = "running".

(** A transient failure: the attempt ends in [except RateLimitError]. *)
Definition is_transient (a : Attempt Dict) : bool :=
  match a with
  | ExecRateLimit | ExecReturn _ WaitRateLimit => true
  | _ => false
  end.

(** A terminal failure raised by the unit of work, with its [str(e)]. *)
Definition raises (a : Attempt Dict) : option string :=
  match a with
  | ExecError e | ExecReturn _ (WaitError e) => Some e
  | _ => None
  end.

(** The attempt runs to completion and reports success with these outputs. *)
Definition succeeds (a : Attempt Dict) : option (option Dict) :=
  match a with
  | ExecReturn _ (WaitReturn r) =>
      if String.eqb (r_status r) "completed" then Some (r_outputs r) else None
  | _ => None
  end.

(** The unit of work reports a failure that no retry will cure: it raises, or
    the execution ends in a status other than "completed". *)
Definition fails_permanently (a : Attempt Dict) : bool :=
  match a with
  | ExecError _ | ExecReturn _ (WaitError _) => true
  | ExecReturn _ (WaitReturn r) => negb (String.eqb (r_status r) "completed")
  | _ => false
  end.

(** The attempt reports success. *)
Definition is_success (a : Attempt Dict) : bool :=
  match succeeds a with Some _ => true | None => false end.

(** The item that the call returns once the wait of attempt [n] did [w]. *)
Definition after_wait script (w : Waited Dict) it (n : nat) : BatchItem Dict :=
  match w with
  | WaitRateLimit => (on_rate_limit script it n).1
  | WaitError e => fail_with e it
  | WaitReturn r => finish_wait r it
  end.

(** The item that the call returns when the worker stands at [t] with the
    item in state [it]. *)
Definition resume script t it : BatchItem Dict :=
  let n := t_attempt t in
  match t_pc t with
  | L64 => (process_item script it n).1
  | L65 eid w => after_wait script w (started eid it) n
  | L66 w => after_wait script w (set_status "running" it) n
  | L69 w => after_wait script w it n
  | L75 r => finish_wait r it
  | L76 r => set_result (r_outputs r) (set_status "completed" it)
  | L77 r => set_result (r_outputs r) it
  | L79 r => set_error (default "Unknown error" (r_error r)) (set_status "failed" it)
  | L80 r => set_error (default "Unknown error" (r_error r)) it
  | L84 => (on_rate_limit script it n).1
  | L85 => (process_item script (set_retries (retries it + 1) it) (n + 1)).1
  | L86 | L87 _ | L88 => (process_item script it (n + 1)).1
  | L89 => rate_limit_exhausted it
  | L90 => set_error ("Rate limited after " ++ str_of_nat MAX_RETRIES ++ " retries") it
  | L93 e => fail_with e it
  | L94 e => set_error e it
  | L96 => it
  end.

(** The status a worker can see in its item, by location: a terminal status
    only once the assignment just before the [return] was made. *)
Definition pc_status (pc : Pc Dict) (st : string) : Prop :=
  match pc with
  | L77 _ => st = "completed"
  | L80 _ | L90 | L94 _ => st = "failed"
  | L96 => terminal st
  | _ => unfinished st
  end.

(** A bound on the statements a worker still runs: each pass of the retry
    loop costs at most 16 and there are at most [MAX_RETRIES - retries]
    passes left. *)
Definition potential (pc : Pc Dict) it : nat :=
  let left := MAX_RETRIES - retries it in
  match pc with
  | L96 => 2
  | L77 _ | L80 _ | L90 | L94 _ => 3
  | L76 _ | L79 _ | L89 | L93 _ => 4
  | L75 _ => 5
  | L84 => 5 + 16 * left
  | L69 _ => 6 + 16 * left
  | L66 _ => 7 + 16 * left
  | L65 _ _ => 8 + 16 * left
  | L64 => 9 + 16 * left
  | L88 => 10 + 16 * left
  | L87 _ => 11 + 16 * left
  | L86 => 12 + 16 * left
  | L85 => 13 + 16 * (MAX_RETRIES - (retries it + 1))
  end.

(** The worker of a sleeping future is in [time.sleep]. *)
Definition sleeping f : bool :=
  match f_state f with
  | FRunning t => match t_pc t with L87 _ => true | _ => false end
  | _ => false
  end.

(** [terminal], as a test. *)
Definition is_terminal it : bool :=
  String.eqb (status it) "completed" || String.eqb (status it) "failed".

(** Items in a terminal state, as [update_progress] counts them. *)
Definition count_terminal (l : list (BatchItem Dict)) : nat :=
  length (List.filter is_terminal l).

(** A bound on the steps that still concern one row: submit, dispatch, the
    statements of its worker, the return and the collect. *)
Definition weight (fo : option (Future Dict)) (ito : option (BatchItem Dict)) : nat :=
  match fo with
  | None => 12 + 16 * MAX_RETRIES
  | Some f =>
      match f_state f with
      | FPending => 11 + 16 * MAX_RETRIES
      | FRunning t => match ito with Some it => potential (t_pc t) it | None => 0 end
      | FFinished => if f_yielded f then 0 else 1
      end
  end.

(** [client r] is what the remote service does for the item at reference
    [r]; [concurrency] is the size of the pool and [sample] the input rows. *)
Variable client : nat -> Script Dict.
Variable concurrency : nat.
Variable sample : list Dict.

(** What the call for the [k]-th row returns, on its own. *)
Definition outcome (k : nat) (d : Dict) : BatchItem Dict :=
  (process_item (client k) (new_item k d) 0).1.

(** The run as a function of the input: row [k] processed on its own. *)
Definition batch_result : list (BatchItem Dict) := imap outcome sample.

(** The item of row [k] against the future submitted for it, if any. *)
Definition cell_ok (k : nat) (d : Dict) (fo : option (Future Dict)) it : Prop :=
  match fo with
  | None => it = new_item k d
  | Some f =>
      f_item f = k /\
      match f_state f with
      | FPending => it = new_item k d /\ f_yielded f = false
      | FRunning t =>
          resume (client k) t it = outcome k d /\
          pc_status (t_pc t) (status it) /\ f_yielded f = false
      | FFinished => it = outcome k d
      end
  end.

(** The invariant of a run: the list [items] is never rebound to other
    objects, at most [concurrency] workers are busy, and every row is in the
    state its future says. *)
Record Inv s : Prop := mkInv {
  inv_heap : length (heap s) = length sample;
  inv_items : items s = seq 0 (length sample);
  inv_futures : length (futures s) <= length sample;
  inv_busy : busy s <= concurrency;
  inv_cell : forall k d, sample !! k = Some d ->
             exists it, heap s !! k = Some it /\ cell_ok k d (futures s !! k) it
}.

(** The states of the runs on [sample]. *)
Definition reachable s : Prop :=
  exists acts, run client concurrency acts (init sample) = Some s.

(** What one step does to the row it touches. *)
Inductive cell_step (k : nat) :
  option (Future Dict) * BatchItem Dict -> option (Future Dict) * BatchItem Dict -> Prop :=
| cs_submit it :
    cell_step k (None, it) (Some (mkFuture k FPending false), it)
| cs_dispatch it :
    cell_step k (Some (mkFuture k FPending false), it)
                (Some (mkFuture k (FRunning (mkThread L64 0)) false), it)
| cs_work t it t' it' :
    thread_step (client k) t it = Some (t', it') ->
    cell_step k (Some (mkFuture k (FRunning t) false), it)
                (Some (mkFuture k (FRunning t') false), it')
| cs_return t it :
    t_pc t = L96 ->
    cell_step k (Some (mkFuture k (FRunning t) false), it)
                (Some (mkFuture k FFinished false), it)
| cs_collect it :
    cell_step k (Some (mkFuture k FFinished false), it)
                (Some (mkFuture k FFinished true), it).

(** An upper bound on the steps the run still takes. *)
Definition fuel s : nat :=
  sum_list_with (fun k => weight (futures s !! k) (heap s !! k)) (seq 0 (length sample)).

End Vocabulary.

(** C3 as the spec words it: the message starts with a lower-case "rate". *)
Definition C3_as_stated {Dict : Type} (script : Script Dict) (it : BatchItem Dict) : Prop :=
  let out := process_item script it 0 in
  retries out.1 = MAX_RETRIES /\
  out.2 = map (fun k => (RETRY_DELAY * float_of_nat (2 ^ (k - 1)))%float)
              (seq 1 MAX_RETRIES) /\
  status out.1 = "failed" /\
  error out.1 = Some ("rate limited after " ++ str_of_nat MAX_RETRIES ++ " retries").

(** C6 as the spec words it: the run is stopped after the steps [before];
    from there it reaches its final report without handing out any queued
    item, and the items still queued show as "pending" in that report. *)
Definition C6_as_stated {Dict : Type} (client : nat -> Script Dict) (C : nat)
    (sample : list Dict) (before : list Action) : Prop :=
  forall s, run client C before (init sample) = Some s ->
  exists rest s',
    run client C rest s = Some s' /\ final s' = true /\ ~ In Dispatch rest /\
    forall k f, futures s !! k = Some f -> is_pending f = true ->
                exists it, items_of s' !! k = Some it /\ status it = "pending".

(** ** Concrete clients and schedules used to exercise the model *)

(** The reply for a completed execution and the reply for a failed one. *)
Definition ok_reply : WaitResult Row :=
  mkWaitResult "completed" (Some [("sent", "yes")]) None.
Definition bad_reply : WaitResult Row :=
  mkWaitResult "failed" None (Some "mailbox unavailable").

(** Rows 2 and 5 fail for good, the others complete at once. *)
Definition sample_client (k n : nat) : Attempt Row :=
  if (k =? 2) || (k =? 5) then ExecReturn "exec" (WaitReturn bad_reply)
  else ExecReturn "exec" (WaitReturn ok_reply).

(** Submit everything, then run the rows one after the other. *)
Definition one_by_one (rows works : nat) : list Action :=
  (repeat Submit rows ++
   flat_map (fun k => Dispatch :: repeat (Work k) works ++ [Collect k]) (seq 0 rows))%list.

(** Two rows: the first is rate limited once during the wait and then
    completes, the second raises at once. *)
Definition pair_sample : list Row := [ [("name", "a")]; [("name", "b")] ].
Definition pair_client (k n : nat) : Attempt Row :=
  match k, n with
  | 0, 0 => ExecReturn "exec-1" WaitRateLimit
  | 0, _ => ExecReturn "exec-2" (WaitReturn ok_reply)
  | _, _ => ExecError "connection refused"
  end.
(** Both rows in flight; row 0 has reached its backoff sleep. *)
Definition pair_asleep : list Action :=
  [Submit; Submit; Dispatch; Dispatch] ++ repeat (Work 0) 7.
(** The rest of that run: row 1 fails, row 0 wakes up and completes. *)
Definition pair_rest : list Action :=
  repeat (Work 1) 4 ++ repeat (Work 0) 10 ++ [Collect 1; Collect 0].

(** A run of the two-row sample up to the point where row 1 has failed and
    row 0 is about to store its result. *)
Definition pair_midway : list Action :=
  pair_asleep ++ repeat (Work 1) 4 ++ repeat (Work 0) 8.

(** ** The rest of [main]: configuration check and summary block *)

(** The placeholders of lines 117 and 120. *)
Definition API_KEY_PLACEHOLDER : string := "fm_live_your_api_key_here".
Definition WORKFLOW_ID_PLACEHOLDER : string := "wf_your_workflow_id".

(** [not v] for the value of [os.getenv]: unset, or set to the empty string. *)
Definition falsy (v : option string) : bool :=
  match v with
  | None | Some EmptyString => true
  | Some (String _ _) => false
  end.

(** [v == placeholder] for the value of [os.getenv]. *)
Definition is_placeholder (v : option string) (placeholder : string) : bool :=
  match v with
  | Some x => String.eqb x placeholder
  | None => false
  end.

(** Lines 116-122: the message printed before [sys.exit(1)], or [None] when
    the configuration is accepted. *)
Definition check_config (api_key workflow_id : option string) : option string :=
  if falsy api_key || is_placeholder api_key API_KEY_PLACEHOLDER
  then Some "Error: Please set FLOWMAESTRO_API_KEY in your .env file"
  else if falsy workflow_id || is_placeholder workflow_id WORKFLOW_ID_PLACEHOLDER
  then Some "Error: Please set WORKFLOW_ID in your .env file"
  else None.

(** The newline character and ["=" * 50]. *)
Definition nl : string := String (Ascii.ascii_of_nat 10) EmptyString.
Definition rule : string := String.concat "" (repeat "=" 50).

Section Summary.
Context {Dict : Type}.
(** [str(d)] for a dictionary of outputs. *)
Variable repr : Dict -> string.
Implicit Types (it : BatchItem Dict) (l : list (BatchItem Dict)).

(** Lines 169-170. *)
Definition completed_items l : list (BatchItem Dict) :=
  List.filter (fun it => String.eqb (status it) "completed") l.
Definition failed_items l : list (BatchItem Dict) :=
  List.filter (fun it => String.eqb (status it) "failed") l.

(** Line 181: [f"  - Item {item.index}: {item.error}"]; an unset error
    prints as [None]. *)
Definition failed_line it : string :=
  "  - Item " ++ str_of_nat (index it) ++ ": " ++ default "None" (error it).

(** Line 187: [f"  - Item {item.index}: {item.result}"]. *)
Definition sample_line it : string :=
  "  - Item " ++ str_of_nat (index it) ++ ": " ++ default "None" (repr <$> result it).

(** Lines 163-187, one string per [print]; the flag says that line 175
    raised ZeroDivisionError, which ends the block there. *)
Definition report l : list string * bool :=
  let completed := completed_items l in
  let failed := failed_items l in
  let counts :=
    [ nl; rule; "BATCH PROCESSING SUMMARY" ++ nl;
      "Total items:  " ++ str_of_nat (length l);
      "Completed:    " ++ str_of_nat (length completed);
      "Failed:       " ++ str_of_nat (length failed) ] in
  let failed_head := nl ++ "Failed items:" in
  let sample_head := nl ++ "Sample results (first 3):" in
  match success_rate (length completed) (length l) with
  | None => (counts, true)
  | Some rate =>
      let rate_line := "Success rate: " ++ format_1f rate ++ "%" in
      let failed_part :=
        match failed with
        | [] => []
        | _ => failed_head :: map failed_line failed
        end in
      let sample_part :=
        match completed with
        | [] => []
        | _ => sample_head :: map sample_line (take 3 completed)
        end in
      (app counts (rate_line :: app failed_part sample_part), false)
  end.

(** What [main] prints from line 163 on and the status the process exits
    with, given the items the loop left: an exception in the block is caught
    at line 189, reported and turned into [sys.exit(1)]. *)
Definition main_tail l : list string * nat :=
  match report l with
  | (printed, true) => (app printed [nl ++ "Error: division by zero"], 1)
  | (printed, false) => (printed, 0)
  end.

(** The exit status of [main] when the loop of the pool left [l]: 1 on a
    refused configuration, before anything is run. *)
Definition main_exit (api_key workflow_id : option string) l : nat :=
  match check_config api_key workflow_id with
  | Some _ => 1
  | None => (main_tail l).2
  end.

End Summary.

(** ** Further vocabulary *)

(** How far an item is: pending, then running, then completed or failed. *)
Definition status_rank (st : string) : nat :=
  if String.eqb st "pending" then 0
  else if String.eqb st "running" then 1
  else 2.

Definition is_submit (a : Action) : bool :=
  match a with Submit => true | _ => false end.
Definition is_dispatch (a : Action) : bool :=
  match a with Dispatch => true | _ => false end.
Definition is_collect (a : Action) : bool :=
  match a with Collect _ => true | _ => false end.

(** Futures that a worker has taken, and futures that [as_completed] has
    yielded. *)
Definition taken {Dict : Type} (s : State Dict) : nat :=
  length (List.filter (fun f => negb (is_pending f)) (futures s)).
Definition yielded {Dict : Type} (s : State Dict) : nat :=
  length (List.filter (fun f => f_yielded f) (futures s)).

(** How a call of [process_item] ends: [Ended it a out] says that the last
    attempt did [a] and left the item [out], where [it] is the item as the call
    received it. *)
Inductive Ended {Dict : Type} (it : BatchItem Dict) :
  Attempt Dict -> BatchItem Dict -> Prop :=
| ended_completed eid r out :
    r_status r = "completed" ->
    status out = "completed" -> result out = r_outputs r ->
    execution_id out = Some eid -> error out = error it ->
    Ended it (ExecReturn eid (WaitReturn r)) out
| ended_not_completed eid r out :
    r_status r <> "completed" ->
    status out = "failed" -> error out = Some (default "Unknown error" (r_error r)) ->
    execution_id out = Some eid -> result out = result it ->
    Ended it (ExecReturn eid (WaitReturn r)) out
| ended_raised a e out :
    raises a = Some e ->
    status out = "failed" -> error out = Some e -> result out = result it ->
    Ended it a out
| ended_rate_limited a out :
    is_transient a = true -> MAX_RETRIES <= retries out ->
    status out = "failed" ->
    error out = Some ("Rate limited after " ++ str_of_nat MAX_RETRIES ++ " retries") ->
    result out = result it ->
    Ended it a out.

(** A client that is rate limited four times and would then complete. *)
Definition late_client (n : nat) : Attempt Row :=
  if n <? 4 then ExecRateLimit else ExecReturn "late" (WaitReturn ok_reply).


(** The work queue is first in, first out: an earlier item that is still
    queued keeps every later one queued. *)
Definition fifo {Dict : Type} (s : State Dict) : Prop :=
  forall j k fj fk,
    j < k -> futures s !! j = Some fj -> futures s !! k = Some fk ->
    is_pending fj = true -> is_pending fk = true.

(** The two-row sample with a single worker: row 0 from start to end, then
    row 1. *)
Definition pair_in_turn : list Action :=
  [Submit; Submit; Dispatch] ++ repeat (Work 0) 17 ++ [Dispatch] ++ repeat (Work 1) 4
  ++ [Collect 0; Collect 1].

(** The number of tenths that [format_1f] prints for a finite float that is
    not negative. *)
Definition printed_tenths (x : float) : option Z :=
  match Prim2SF x with
  | S754_zero false => Some 0%Z
  | S754_finite false m e => Some (tenths m e)
  | _ => None
  end.

(** The rate printed for [c] completed items out of [t] is [p] tenths,
    between 0.0 and 100.0 and no further than 0.05 from [100 * c / t]. *)
Definition rate_within (c t : nat) (x : float) (p : Z) : Prop :=
  format_1f x = str_of_Z (p / 10) ++ "." ++ str_of_Z (p mod 10) /\
  (0 <= p <= 1000)%Z /\
  (2 * Z.abs (p * Z.of_nat t - 1000 * Z.of_nat c) <= Z.of_nat t)%Z.

Definition rate_withinb (c t : nat) : bool :=
  match success_rate c t with
  | Some x =>
      match printed_tenths x with
      | Some p =>
          String.eqb (format_1f x) (str_of_Z (p / 10) ++ "." ++ str_of_Z (p mod 10))
          && (0 <=? p)%Z && (p <=? 1000)%Z
          && (2 * Z.abs (p * Z.of_nat t - 1000 * Z.of_nat c) <=? Z.of_nat t)%Z
      | None => false
      end
  | None => false
  end.

(** [rate_withinb] for every batch size up to [n] and every count. *)
Definition rates_checked (n : nat) : bool :=
  forallb (fun t => forallb (fun c => rate_withinb c t) (seq 0 (S t))) (seq 1 n).

(** * Proofs *)

Section ListFacts.
Context {A : Type}.

Lemma filter_length_insert (p : A -> bool) (l : list A) k x y :
  l !! k = Some x ->
  length (List.filter p (<[k := y]> l)) + (if p x then 1 else 0) =
  length (List.filter p l) + (if p y then 1 else 0).
Proof.
  revert k. induction l as [| a l IH]; intros [| k] H; simpl in *; try discriminate H.
  - inversion H; subst. destruct (p x), (p y); simpl; lia.
  - specialize (IH k H). destruct (p a); simpl; lia.
Qed.

Lemma filter_length_snoc (p : A -> bool) (l : list A) x :
  length (List.filter p (l ++ [x])) = length (List.filter p l) + (if p x then 1 else 0).
Proof.
  rewrite List.filter_app, List.length_app. simpl. destruct (p x); reflexivity.
Qed.

Lemma filter_length_pos (p : A -> bool) (l : list A) :
  0 < length (List.filter p l) -> exists k x, l !! k = Some x /\ p x = true.
Proof.
  induction l as [| a l IH]; simpl; [lia |].
  destruct (p a) eqn:Hp.
  - intros _. exists 0, a. auto.
  - intros H. destruct (IH H) as (k & x & Hk & Hx). exists (S k), x. auto.
Qed.

Lemma forallb_false_lookup (p : A -> bool) (l : list A) :
  forallb p l = false -> exists k x, l !! k = Some x /\ p x = false.
Proof.
  induction l as [| a l IH]; simpl; [discriminate |].
  destruct (p a) eqn:Hp; simpl.
  - intros H. destruct (IH H) as (k & x & Hk & Hx). exists (S k), x. auto.
  - intros _. exists 0, a. auto.
Qed.

Lemma forallb_lookup (p : A -> bool) (l : list A) k x :
  forallb p l = true -> l !! k = Some x -> p x = true.
Proof.
  revert k. induction l as [| a l IH]; intros [| k] H Hk; simpl in *;
    try discriminate Hk; apply andb_prop in H as [Ha Hl].
  - inversion Hk; subst. exact Ha.
  - eauto.
Qed.

Lemma sum_list_with_lt (g h : nat -> nat) (l : list nat) k :
  (forall j, j ∈ l -> j <> k -> g j = h j) ->
  k ∈ l -> g k < h k ->
  sum_list_with g l < sum_list_with h l.
Proof.
  intros Hframe Hin Hlt.
  assert (Hle : forall l', (forall j, j ∈ l' -> j <> k -> g j = h j) ->
                           sum_list_with g l' <= sum_list_with h l').
  { induction l' as [| a l' IH]; simpl; intros Hf; [lia |].
    assert (g a <= h a).
    { destruct (decide (a = k)) as [-> | Hne]; [lia |].
      rewrite (Hf a); [lia | left | exact Hne]. }
    assert (sum_list_with g l' <= sum_list_with h l').
    { apply IH. intros j Hj. apply Hf. right. exact Hj. }
    lia. }
  induction l as [| a l IH]; simpl.
  - inversion Hin.
  - pose proof (Hle l) as Hl.
    assert (Hf' : forall j, j ∈ l -> j <> k -> g j = h j).
    { intros j Hj. apply Hframe. right. exact Hj. }
    specialize (Hl Hf').
    destruct (decide (a = k)) as [-> | Hne]; [lia |].
    assert (g a = h a) by (apply Hframe; [left | exact Hne]).
    assert (k ∈ l).
    { apply elem_of_cons in Hin as [-> | Hin]; [contradiction | exact Hin]. }
    specialize (IH Hf' H0). lia.
Qed.

Lemma omap_fmap_compose {X B C} (g : B -> option C) (h : X -> B) (l : list X) :
  omap g (h <$> l) = omap (fun x => g (h x)) l.
Proof.
  induction l as [| a l IH]; [reflexivity |].
  cbn. destruct (g (h a)); cbn; rewrite <- IH; reflexivity.
Qed.

Lemma omap_lookup_seq (l : list A) :
  omap (fun r => l !! r) (seq 0 (length l)) = l.
Proof.
  induction l as [| a l IH]; [reflexivity |].
  cbn [length seq]. rewrite <- fmap_S_seq.
  assert (E : forall t, omap (fun r => (a :: l) !! r) (0 :: t)
                        = a :: omap (fun r => (a :: l) !! r) t) by reflexivity.
  rewrite E, omap_fmap_compose. f_equal. exact IH.
Qed.

(** Counting by status is monotone along an index-wise implication. *)
Lemma filter_length_le {B} (p : A -> bool) (q : B -> bool) (l : list A) (l' : list B) :
  (forall k x, l !! k = Some x -> p x = true ->
               exists y, l' !! k = Some y /\ q y = true) ->
  length (List.filter p l) <= length (List.filter q l').
Proof.
  revert l'. induction l as [| a l IH]; intros l' H; simpl; [lia |].
  assert (Htl : forall l'', (forall k x, l !! k = Some x -> p x = true ->
                 exists y, l'' !! k = Some y /\ q y = true) ->
                 length (List.filter p l) <= length (List.filter q l'')) by exact IH.
  destruct l' as [| b l'].
  - destruct (p a) eqn:Hp.
    + destruct (H 0 a eq_refl Hp) as (y & Hy & _). discriminate Hy.
    + transitivity (length (List.filter q (@nil B))); [| simpl; lia].
      apply Htl. intros k x Hk Hx. destruct (H (S k) x Hk Hx) as (y & Hy & _).
      discriminate Hy.
  - specialize (Htl l' (fun k x Hk Hx => H (S k) x Hk Hx)). simpl.
    destruct (p a) eqn:Hp; simpl.
    + destruct (H 0 a eq_refl Hp) as (y & Hy & Hq). inversion Hy; subst.
      rewrite Hq. simpl. lia.
    + destruct (q b); simpl; lia.
Qed.

End ListFacts.

Section ProcessItemFacts.
Context {Dict : Type}.
Implicit Types (it : BatchItem Dict) (script : Script Dict).

Lemma try_block_rate_limit_retries a it it' :
  try_block a it = RaisedRateLimit it' -> retries it' = retries it.
Proof.
  destruct a as [| e | eid [| e | r]]; simpl; intros H; inversion H; reflexivity.
Qed.

Lemma process_item_eq script it n :
  process_item script it n =
  match try_block (script n) it with
  | Fell it1 => (it1, [])
  | Raised e it1 => (fail_with e it1, [])
  | RaisedRateLimit it1 => on_rate_limit script it1 n
  end.
Proof.
  unfold on_rate_limit.
  funelim (process_item script it n).
  all: match goal with H : try_block _ _ = _ |- _ => rewrite H end.
  all: try reflexivity.
  all: destruct (lt_dec _ _); try reflexivity; contradiction.
Qed.

End ProcessItemFacts.

(** ** Properties of [process_item] *)

Section ProcessItemProps.
Context {Dict : Type}.
Implicit Types (it : BatchItem Dict) (script : Script Dict).

Lemma terminal_not_unfinished st : terminal st -> unfinished st -> False.
Proof. intros [-> | ->] [H | H]; discriminate H. Qed.

Lemma fst_let_pair {A B C} (p : A * B) (g : B -> C) :
  (let '(a, b) := p in (a, g b)).1 = p.1.
Proof. destruct p; reflexivity. Qed.

Lemma snd_let_pair {A B C} (p : A * B) (g : B -> C) :
  (let '(a, b) := p in (a, g b)).2 = g p.2.
Proof. destruct p; reflexivity. Qed.

Lemma finish_wait_terminal r it : terminal (status (finish_wait r it)).
Proof. unfold finish_wait, terminal. destruct (String.eqb _ _); simpl; auto. Qed.

(** Well-founded induction along the recursion of [process_item]. *)
Lemma retry_ind (P : BatchItem Dict -> Prop) :
  (forall it,
      (forall it', MAX_RETRIES - retries it' < MAX_RETRIES - retries it -> P it') -> P it) ->
  forall it, P it.
Proof.
  intros IH it. remember (MAX_RETRIES - retries it) as m eqn:Hm.
  revert it Hm. induction m as [m IHm] using lt_wf_ind.
  intros it ->. apply IH. intros it' Hlt. eapply IHm; [exact Hlt | reflexivity].
Qed.

Lemma try_block_transient a it :
  is_transient a = true ->
  exists it', try_block a it = RaisedRateLimit it' /\ retries it' = retries it /\
              index it' = index it /\ data it' = data it /\ result it' = result it.
Proof.
  destruct a as [| e | eid [| e | r]]; simpl; intros H; try discriminate H;
    eexists; (split; [reflexivity | auto]).
Qed.

Lemma try_block_raises a it e :
  raises a = Some e ->
  exists it', try_block a it = Raised e it' /\ retries it' = retries it /\
              index it' = index it /\ data it' = data it.
Proof.
  destruct a as [| e' | eid [| e' | r]]; simpl; intros H; inversion H; subst;
    eexists; (split; [reflexivity | auto]).
Qed.

Lemma process_item_terminal script it n :
  terminal (status (process_item script it n).1).
Proof.
  revert n. induction it as [it IH] using retry_ind. intros n.
  rewrite process_item_eq.
  destruct (try_block (script n) it) as [it1 | it1 | e it1] eqn:Hexit.
  - destruct (script n) as [| e | eid [| e | r]]; simpl in Hexit; inversion Hexit.
    apply finish_wait_terminal.
  - apply try_block_rate_limit_retries in Hexit.
    unfold on_rate_limit. destruct (lt_dec _ _).
    + rewrite fst_let_pair. apply IH. simpl. lia.
    + right. reflexivity.
  - right. reflexivity.
Qed.

Lemma try_block_index_data a it :
  match try_block a it with
  | Fell it1 | RaisedRateLimit it1 | Raised _ it1 =>
      index it1 = index it /\ data it1 = data it
  end.
Proof.
  destruct a as [| e | eid [| e | r]]; simpl; auto.
  unfold finish_wait. destruct (String.eqb _ _); simpl; auto.
Qed.

Lemma process_item_index_data script it n :
  index (process_item script it n).1 = index it /\
  data (process_item script it n).1 = data it.
Proof.
  revert n. induction it as [it IH] using retry_ind. intros n.
  rewrite process_item_eq.
  pose proof (try_block_index_data (script n) it) as Hk.
  destruct (try_block (script n) it) as [it1 | it1 | e it1] eqn:Hexit.
  - exact Hk.
  - apply try_block_rate_limit_retries in Hexit.
    unfold on_rate_limit. destruct (lt_dec _ _).
    + rewrite fst_let_pair.
      destruct (IH (set_retries (retries it1 + 1) it1)) with (n := n + 1) as [Hi Hd].
      { simpl. lia. }
      rewrite Hi, Hd. exact Hk.
    + exact Hk.
  - exact Hk.
Qed.

(** An item that is rate limited on every attempt, whatever its retry count
    so far: it sleeps once per remaining retry and then gives up. *)
Lemma process_item_always_transient script :
  (forall m, is_transient (script m) = true) ->
  forall it n,
    retries it <= MAX_RETRIES ->
    let out := process_item script it n in
    status out.1 = "failed" /\
    error out.1 = Some ("Rate limited after " ++ str_of_nat MAX_RETRIES ++ " retries") /\
    retries out.1 = MAX_RETRIES /\
    result out.1 = result it /\
    out.2 = map backoff (seq (retries it + 1) (MAX_RETRIES - retries it)).
Proof.
  intros Hall it. induction it as [it IH] using retry_ind. intros n Hle. simpl.
  rewrite process_item_eq.
  destruct (try_block_transient (script n) it (Hall n)) as (it1 & -> & Hr & _ & _ & Hres).
  unfold on_rate_limit. destruct (lt_dec _ _) as [Hlt | Hge].
  - rewrite fst_let_pair, snd_let_pair.
    destruct (IH (set_retries (retries it1 + 1) it1)) with (n := n + 1)
      as (Hs & He & Hn & Hres' & Hd); [simpl; lia | simpl; lia |].
    simpl in Hd, Hres'. rewrite Hs, He, Hn, Hd, Hres', Hres. repeat split.
    rewrite Hr.
    replace (MAX_RETRIES - retries it) with (S (MAX_RETRIES - (retries it + 1))) by lia.
    simpl. do 3 f_equal. lia.
  - simpl. repeat split; try congruence; [lia |].
    replace (MAX_RETRIES - retries it) with 0 by lia. reflexivity.
Qed.

End ProcessItemProps.

(** ** The worker refines [process_item] *)

Section WorkerProps.
Context {Dict : Type}.
Implicit Types (it : BatchItem Dict) (script : Script Dict) (t : Thread Dict).

Lemma thread_step_resume script t it t' it' :
  thread_step script t it = Some (t', it') ->
  resume script t' it' = resume script t it.
Proof.
  destruct t as [pc n]. unfold thread_step, resume. simpl.
  destruct pc; simpl; intros H.
  all: try (inversion H; subst; reflexivity).
  - destruct (script n) as [| e | eid w] eqn:Hn; inversion H; subst; simpl;
      rewrite process_item_eq, Hn; simpl; [reflexivity .. |].
    destruct w; reflexivity.
  - destruct w; inversion H; subst; reflexivity.
  - unfold finish_wait. destruct (String.eqb _ _); inversion H; subst; reflexivity.
  - unfold on_rate_limit.
    destruct (lt_dec _ _); inversion H; subst; simpl; [| reflexivity].
    rewrite fst_let_pair. reflexivity.
Qed.

Lemma thread_step_status script t it t' it' :
  thread_step script t it = Some (t', it') ->
  pc_status (t_pc t) (status it) ->
  pc_status (t_pc t') (status it') /\
  (terminal (status it) -> status it' = status it).
Proof.
  destruct t as [pc n]. unfold thread_step. simpl.
  destruct pc; simpl; intros H Hs.
  all: repeat match type of H with
         | context [match ?x with _ => _ end] => destruct x
         end.
  all: inversion H; subst; clear H; simpl.
  all: split;
    [ first [ assumption | reflexivity | left; reflexivity | right; reflexivity
            | left; assumption | right; assumption ]
    | intros Ht;
      first [ reflexivity | destruct (terminal_not_unfinished _ Ht Hs) ] ].
Qed.

Lemma thread_step_index_data script t it t' it' :
  thread_step script t it = Some (t', it') ->
  index it' = index it /\ data it' = data it.
Proof.
  destruct t as [pc n]. unfold thread_step. simpl.
  destruct pc; simpl; intros H.
  all: try (inversion H; subst; simpl; auto).
  - destruct (script n) as [| e | eid w]; inversion H; subst; simpl; auto.
  - destruct w; inversion H; subst; simpl; auto.
  - destruct (String.eqb _ _); inversion H; subst; simpl; auto.
  - destruct (lt_dec _ _); inversion H; subst; simpl; auto.
Qed.

Lemma thread_step_total script t it :
  t_pc t <> L96 -> exists t' it', thread_step script t it = Some (t', it').
Proof.
  destruct t as [pc n]. unfold thread_step. simpl.
  destruct pc; simpl; intros H; try (eexists _, _; reflexivity).
  - destruct (script n) as [| e | eid w]; eexists _, _; reflexivity.
  - destruct w; eexists _, _; reflexivity.
  - destruct (String.eqb _ _); eexists _, _; reflexivity.
  - destruct (lt_dec _ _); eexists _, _; reflexivity.
  - contradiction.
Qed.

Lemma thread_step_return script t it :
  thread_step script t it = None -> t_pc t = L96.
Proof.
  destruct t as [pc n]. unfold thread_step. simpl.
  destruct pc; simpl; intros H; try discriminate H; try reflexivity.
  - destruct (script n) as [| e | eid w]; discriminate H.
  - destruct w; discriminate H.
  - destruct (String.eqb _ _); discriminate H.
  - destruct (lt_dec _ _); discriminate H.
Qed.

Lemma thread_step_potential script t it t' it' :
  thread_step script t it = Some (t', it') ->
  potential (t_pc t') it' < potential (t_pc t) it.
Proof.
  destruct t as [pc n]. unfold thread_step, potential.
  generalize MAX_RETRIES. intros M.
  destruct pc; cbn [t_pc t_attempt]; intros H.
  all: repeat match type of H with
         | context [match ?x with _ => _ end] => destruct x
         end.
  all: inversion H; subst; clear H; cbn [t_pc retries set_retries set_status
         set_execution_id set_result set_error]; lia.
Qed.

Lemma potential_L64_bound it : potential L64 it <= 9 + 16 * MAX_RETRIES.
Proof. unfold potential. lia. Qed.

End WorkerProps.

(** ** The pool: invariant of a run *)

Section PoolProps.
Context {Dict : Type}.
Variable client : nat -> Script Dict.
Variable concurrency : nat.
Variable sample : list Dict.
Implicit Types (it : BatchItem Dict) (s : State Dict) (f : Future Dict).

Local Abbreviation outcome := (outcome client).
Local Abbreviation batch_result := (batch_result client sample).
Local Abbreviation cell_ok := (cell_ok client).
Local Abbreviation cell_step := (cell_step client).
Local Abbreviation Inv := (Inv client concurrency sample).
Local Abbreviation inv_heap := (inv_heap client concurrency sample).
Local Abbreviation inv_items := (inv_items client concurrency sample).
Local Abbreviation inv_futures := (inv_futures client concurrency sample).
Local Abbreviation inv_busy := (inv_busy client concurrency sample).
Local Abbreviation inv_cell := (inv_cell client concurrency sample).
Local Abbreviation reachable := (reachable client concurrency sample).
Local Abbreviation fuel := (fuel sample).

Lemma Inv_init : Inv (init sample).
Proof.
  split; simpl.
  - apply length_imap.
  - reflexivity.
  - lia.
  - unfold busy. simpl. lia.
  - intros k d Hk. exists (new_item k d). split; [| reflexivity].
    rewrite list_lookup_imap, Hk. reflexivity.
Qed.

Lemma cell_step_ok k d fo it fo' it' :
  cell_ok k d fo it -> cell_step k (fo, it) (fo', it') -> cell_ok k d fo' it'.
Proof.
  intros Hok Hstep. inversion Hstep; subst; simpl in *.
  - auto.
  - destruct Hok as (_ & -> & _). repeat split. left. reflexivity.
  - destruct Hok as (_ & Hres & Hst & _).
    repeat split.
    + erewrite thread_step_resume by eassumption. exact Hres.
    + eapply thread_step_status; eassumption.
  - destruct Hok as (_ & Hres & _ & _). split; [reflexivity |].
    rewrite <- Hres. unfold resume.
    match goal with H : t_pc _ = L96 |- _ => rewrite H end. reflexivity.
  - destruct Hok as (_ & Hok). auto.
Qed.

Lemma future_eta f : f = mkFuture (f_item f) (f_state f) (f_yielded f).
Proof. destruct f; reflexivity. Qed.

Lemma outcome_index k d : index (outcome k d) = k.
Proof. unfold outcome. rewrite (proj1 (process_item_index_data _ _ _)). reflexivity. Qed.

Lemma outcome_data k d : data (outcome k d) = d.
Proof. unfold outcome. rewrite (proj2 (process_item_index_data _ _ _)). reflexivity. Qed.

Lemma outcome_terminal k d : terminal (status (outcome k d)).
Proof. apply process_item_terminal. Qed.

(** Every step touches one row and leaves the others alone. *)
Lemma step_cell a s s' :
  Inv s -> step client concurrency a s = Some s' ->
  Inv s' /\
  exists k d it it',
    sample !! k = Some d /\ heap s !! k = Some it /\ heap s' !! k = Some it' /\
    cell_step k (futures s !! k, it) (futures s' !! k, it') /\
    (forall j, j <> k -> futures s' !! j = futures s !! j /\ heap s' !! j = heap s !! j).
Proof.
  intros [Hheap Hitems Hfut Hbusy Hcell] Hstep.
  destruct a as [| | k | k]; simpl in Hstep.
  - (* Submit *)
    destruct (items s !! length (futures s)) as [r |] eqn:Hr; simpl in Hstep; [| discriminate].
    inversion Hstep; subst s'; clear Hstep.
    rewrite Hitems in Hr. apply lookup_seq in Hr as [-> Hlt]. simpl in *.
    destruct (lookup_lt_is_Some_2 sample (length (futures s)) Hlt) as [d Hd].
    destruct (Hcell _ _ Hd) as (it & Hit & Hok).
    rewrite (proj2 (lookup_ge_None (futures s) _)) in Hok by lia.
    assert (Hnew : (futures s ++ [mkFuture (length (futures s)) (@FPending Dict) false])%list
                     !! length (futures s)
                   = Some (mkFuture (length (futures s)) FPending false)).
    { rewrite lookup_app_r by lia. rewrite Nat.sub_diag. reflexivity. }
    assert (Hold : forall j, j <> length (futures s) ->
              (futures s ++ [mkFuture (length (futures s)) (@FPending Dict) false])%list !! j
              = futures s !! j).
    { intros j Hj. destruct (decide (j < length (futures s))) as [Hjl | Hjl].
      - apply lookup_app_l. exact Hjl.
      - rewrite (proj2 (lookup_ge_None (futures s) j)) by lia.
        apply lookup_ge_None. rewrite length_app. simpl. lia. }
    split.
    + split; simpl; auto.
      * rewrite length_app. simpl. lia.
      * unfold busy in *. simpl. rewrite filter_length_snoc. simpl. lia.
      * intros j dj Hj. destruct (Hcell _ _ Hj) as (itj & Hitj & Hokj).
        exists itj. split; [exact Hitj |].
        destruct (decide (j = length (futures s))) as [-> | Hne].
        -- rewrite Hnew. rewrite (proj2 (lookup_ge_None (futures s) _)) in Hokj by lia.
           simpl in *. auto.
        -- rewrite Hold by exact Hne. exact Hokj.
    + exists (length (futures s)), d, it, it. simpl.
      rewrite Hnew, (proj2 (lookup_ge_None (futures s) _)) by lia.
      repeat split; auto. constructor.
  - (* Dispatch *)
    destruct (busy s <? concurrency) eqn:Hb; [| discriminate].
    apply Nat.ltb_lt in Hb.
    destruct (list_find _ (futures s)) as [[k f] |] eqn:Hfind; simpl in Hstep; [| discriminate].
    inversion Hstep; subst s'; clear Hstep.
    apply list_find_Some in Hfind as (Hk & Hpend & _).
    pose proof (lookup_lt_Some _ _ _ Hk) as Hklt.
    destruct (lookup_lt_is_Some_2 sample k ltac:(lia)) as [d Hd].
    destruct (Hcell _ _ Hd) as (it & Hit & Hok).
    rewrite Hk in Hok. simpl in Hok. destruct Hok as [Hfi Hok].
    unfold is_pending in Hpend. destruct (f_state f) eqn:Hfs; try contradiction.
    destruct Hok as [-> Hy].
    assert (Hf : f = mkFuture k FPending false).
    { rewrite (future_eta f). congruence. }
    subst f. simpl in *.
    split.
    + split; simpl; auto.
      * rewrite length_insert. exact Hfut.
      * unfold busy in *. simpl.
        pose proof (filter_length_insert is_running (futures s) k _
                      (mkFuture k (FRunning (mkThread (@L64 Dict) 0)) false) Hk) as Hc.
        simpl in Hc. lia.
      * intros j dj Hj. destruct (Hcell _ _ Hj) as (itj & Hitj & Hokj).
        exists itj. split; [exact Hitj |].
        destruct (decide (j = k)) as [-> | Hne].
        -- rewrite list_lookup_insert_eq by exact Hklt.
           rewrite Hk in Hokj. eapply cell_step_ok; [exact Hokj | constructor].
        -- rewrite list_lookup_insert_ne by congruence. exact Hokj.
    + exists k, d, (new_item k d), (new_item k d). simpl.
      rewrite list_lookup_insert_eq by exact Hklt. rewrite Hk.
      repeat split; auto; [constructor |].
      rewrite list_lookup_insert_ne by congruence. reflexivity.
  - (* Work *)
    destruct (futures s !! k) as [f |] eqn:Hk; simpl in Hstep; [| discriminate].
    destruct (f_state f) as [| t |] eqn:Hfs; try discriminate.
    pose proof (lookup_lt_Some _ _ _ Hk) as Hklt.
    destruct (lookup_lt_is_Some_2 sample k ltac:(lia)) as [d Hd].
    destruct (Hcell _ _ Hd) as (it & Hit & Hok).
    pose proof Hok as Hok0.
    rewrite Hk in Hok. simpl in Hok. destruct Hok as [Hfi Hok].
    rewrite Hfs in Hok. destruct Hok as (Hres & Hst & Hy).
    assert (Hf : f = mkFuture k (FRunning t) false).
    { rewrite (future_eta f). congruence. }
    subst f. simpl in *. rewrite Hit in Hstep. simpl in Hstep.
    destruct (thread_step (client k) t it) as [[t' it'] |] eqn:Hts;
      inversion Hstep; subst s'; clear Hstep; simpl.
    + assert (Hcs : cell_step k (Some (mkFuture k (FRunning t) false), it)
                                (Some (mkFuture k (FRunning t') false), it'))
        by (constructor; exact Hts).
      split.
      * split; simpl; auto.
        -- rewrite length_insert. exact Hheap.
        -- rewrite length_insert. exact Hfut.
        -- unfold busy in *. simpl.
           pose proof (filter_length_insert is_running (futures s) k _
                         (mkFuture k (FRunning t') false) Hk) as Hc.
           simpl in Hc. lia.
        -- intros j dj Hj. destruct (Hcell _ _ Hj) as (itj & Hitj & Hokj).
           destruct (decide (j = k)) as [-> | Hne].
           ++ exists it'. rewrite !list_lookup_insert_eq by lia. split; [reflexivity |].
              assert (dj = d) by congruence. subst dj.
              eapply cell_step_ok; [| exact Hcs]. rewrite Hk in Hok0. exact Hok0.
           ++ exists itj. rewrite !list_lookup_insert_ne by congruence. auto.
      * exists k, d, it, it'. rewrite !list_lookup_insert_eq by lia. rewrite Hk.
        repeat split; auto; rewrite list_lookup_insert_ne by congruence; reflexivity.
    + apply thread_step_return in Hts.
      assert (Hcs : cell_step k (Some (mkFuture k (FRunning t) false), it)
                                (Some (mkFuture k FFinished false), it))
        by (constructor; exact Hts).
      split.
      * split; simpl; auto.
        -- rewrite length_insert. exact Hfut.
        -- unfold busy in *. simpl.
           pose proof (filter_length_insert is_running (futures s) k _
                         (mkFuture k (@FFinished Dict) false) Hk) as Hc.
           simpl in Hc. lia.
        -- intros j dj Hj. destruct (Hcell _ _ Hj) as (itj & Hitj & Hokj).
           exists itj. split; [exact Hitj |].
           destruct (decide (j = k)) as [-> | Hne].
           ++ rewrite list_lookup_insert_eq by lia.
              assert (dj = d) by congruence. subst dj.
              assert (itj = it) by congruence. subst itj.
              eapply cell_step_ok; [| exact Hcs]. rewrite Hk in Hok0. exact Hok0.
           ++ rewrite list_lookup_insert_ne by congruence. exact Hokj.
      * exists k, d, it, it. rewrite list_lookup_insert_eq by lia. rewrite Hk.
        repeat split; auto. rewrite list_lookup_insert_ne by congruence. reflexivity.
  - (* Collect *)
    destruct (length (futures s) =? length (items s)) eqn:Hall; [| discriminate].
    destruct (futures s !! k) as [f |] eqn:Hk; simpl in Hstep; [| discriminate].
    destruct (is_finished f && negb (f_yielded f)) eqn:Hfin; [| discriminate].
    apply andb_prop in Hfin as [Hfin Hny].
    unfold is_finished in Hfin. destruct (f_state f) eqn:Hfs; try discriminate Hfin.
    apply negb_true_iff in Hny.
    pose proof (lookup_lt_Some _ _ _ Hk) as Hklt.
    destruct (lookup_lt_is_Some_2 sample k ltac:(lia)) as [d Hd].
    destruct (Hcell _ _ Hd) as (it & Hit & Hok).
    rewrite Hk in Hok. simpl in Hok. destruct Hok as [Hfi Hok].
    rewrite Hfs in Hok.
    assert (Hf : f = mkFuture k FFinished false).
    { rewrite (future_eta f). congruence. }
    subst f. simpl in *. unfold collect in Hstep. simpl in Hstep.
    rewrite Hit in Hstep. simpl in Hstep.
    assert (Hidx : index it = k) by (subst it; apply outcome_index).
    rewrite Hidx in Hstep.
    assert (Hlen : length (items s) = length sample).
    { rewrite Hitems. apply length_seq. }
    destruct (k <? length (items s)) eqn:Hin.
    2:{ apply Nat.ltb_ge in Hin. lia. }
    simpl in Hstep. inversion Hstep; subst s'; clear Hstep. simpl.
    assert (Hsame : <[k := k]> (items s) = items s).
    { apply list_insert_id. rewrite Hitems. apply lookup_seq. split; [reflexivity | lia]. }
    rewrite Hsame.
    split.
    + split; simpl; auto.
      * rewrite length_insert. exact Hfut.
      * unfold busy in *. simpl.
        pose proof (filter_length_insert is_running (futures s) k _
                      (mkFuture k (@FFinished Dict) true) Hk) as Hc.
        simpl in Hc. lia.
      * intros j dj Hj. destruct (Hcell _ _ Hj) as (itj & Hitj & Hokj).
        exists itj. split; [exact Hitj |].
        destruct (decide (j = k)) as [-> | Hne].
        -- rewrite list_lookup_insert_eq by lia. rewrite Hk in Hokj.
           eapply cell_step_ok; [exact Hokj | constructor].
        -- rewrite list_lookup_insert_ne by congruence. exact Hokj.
    + exists k, d, it, it. rewrite list_lookup_insert_eq by lia. rewrite Hk.
      repeat split; auto; [constructor |].
      rewrite list_lookup_insert_ne by congruence. reflexivity.
Qed.

Lemma run_Inv acts : forall s s',
  Inv s -> run client concurrency acts s = Some s' -> Inv s'.
Proof.
  induction acts as [| a acts IH]; simpl; intros s s' HI Hrun.
  - inversion Hrun; subst. exact HI.
  - destruct (step client concurrency a s) as [s1 |] eqn:Hs; simpl in Hrun; [| discriminate].
    eapply IH; [| exact Hrun]. eapply step_cell; eassumption.
Qed.

Lemma reachable_Inv s : reachable s -> Inv s.
Proof. intros [acts Hrun]. eapply run_Inv; [apply Inv_init | exact Hrun]. Qed.

Lemma items_of_heap s : Inv s -> items_of s = heap s.
Proof.
  intros HI. unfold items_of. rewrite (inv_items _ HI), <- (inv_heap _ HI).
  apply omap_lookup_seq.
Qed.

(** Once the loop of [main] is over, the heap holds each row's own outcome. *)
Lemma final_heap s : Inv s -> final s = true -> heap s = batch_result.
Proof.
  intros HI Hfin. unfold final in Hfin. apply andb_prop in Hfin as [Hlen Hall].
  apply Nat.eqb_eq in Hlen.
  rewrite (inv_items _ HI), length_seq in Hlen.
  apply list_eq. intros k. unfold batch_result. rewrite list_lookup_imap.
  destruct (sample !! k) as [d |] eqn:Hd; simpl.
  - destruct (inv_cell _ HI _ _ Hd) as (it & Hit & Hok). rewrite Hit. f_equal.
    destruct (lookup_lt_is_Some_2 (futures s) k) as [f Hf].
    { apply lookup_lt_Some in Hd. lia. }
    pose proof (forallb_lookup _ _ _ _ Hall Hf) as Hy.
    rewrite Hf in Hok. simpl in Hok. destruct Hok as [_ Hok].
    destruct (f_state f).
    + destruct Hok as [_ Hn]. congruence.
    + destruct Hok as (_ & _ & Hn). congruence.
    + exact Hok.
  - apply lookup_ge_None. apply lookup_ge_None in Hd. rewrite (inv_heap _ HI). exact Hd.
Qed.

Lemma final_items s : Inv s -> final s = true -> items_of s = batch_result.
Proof. intros HI Hfin. rewrite items_of_heap by exact HI. apply final_heap; assumption. Qed.

(** *** Termination of the run *)

Lemma cell_step_weight k fo it fo' it' :
  cell_step k (fo, it) (fo', it') -> weight fo' (Some it') < weight fo (Some it).
Proof.
  intros H. inversion H; subst; cbn [weight f_state f_yielded t_pc]; try lia.
  - pose proof (potential_L64_bound it'). lia.
  - eapply thread_step_potential. eassumption.
  - match goal with E : t_pc _ = L96 |- _ => rewrite E end. cbn [potential]. lia.
Qed.

Lemma step_fuel a s s' :
  Inv s -> step client concurrency a s = Some s' -> fuel s' < fuel s.
Proof.
  intros HI Hstep.
  destruct (step_cell _ _ _ HI Hstep) as (_ & k & d & it & it' & Hd & Hit & Hit' & Hcs & Hframe).
  unfold fuel. apply sum_list_with_lt with (k := k).
  - intros j _ Hj. destruct (Hframe j Hj) as [-> ->]. reflexivity.
  - apply elem_of_seq. apply lookup_lt_Some in Hd. lia.
  - rewrite Hit, Hit'. apply cell_step_weight with (k := k). exact Hcs.
Qed.

(** No schedule is longer than the fuel of the state it starts from. *)
Lemma run_fuel acts : forall s s',
  Inv s -> run client concurrency acts s = Some s' -> length acts + fuel s' <= fuel s.
Proof.
  induction acts as [| a acts IH]; simpl; intros s s' HI Hrun.
  - inversion Hrun; subst. lia.
  - destruct (step client concurrency a s) as [s1 |] eqn:Hs; simpl in Hrun; [| discriminate].
    pose proof (step_fuel _ _ _ HI Hs).
    assert (Inv s1) by (eapply step_cell; eassumption).
    specialize (IH _ _ H0 Hrun). lia.
Qed.

Lemma work_enabled s k f t :
  Inv s -> futures s !! k = Some f -> f_state f = FRunning t ->
  exists s', step client concurrency (Work k) s = Some s'.
Proof.
  intros HI Hk Hfs. simpl. rewrite Hk. simpl. rewrite Hfs.
  pose proof (lookup_lt_Some _ _ _ Hk) as Hklt.
  destruct (lookup_lt_is_Some_2 sample k) as [d Hd].
  { pose proof (inv_futures _ HI). lia. }
  destruct (inv_cell _ HI _ _ Hd) as (it & Hit & Hok).
  rewrite Hk in Hok. destruct Hok as [-> _]. rewrite Hit. simpl.
  destruct (thread_step _ _ _) as [[t' it'] |]; eexists; reflexivity.
Qed.

(** As long as the loop of [main] is not over, some step can be taken. *)
Lemma progress s :
  0 < concurrency -> Inv s -> final s = false ->
  exists a s', step client concurrency a s = Some s'.
Proof.
  intros HC HI Hfin. unfold final in Hfin.
  pose proof (inv_futures _ HI) as Hfut.
  assert (Hlen : length (items s) = length sample).
  { rewrite (inv_items _ HI). apply length_seq. }
  destruct (length (futures s) =? length (items s)) eqn:Hall; simpl in Hfin.
  - apply Nat.eqb_eq in Hall.
    apply forallb_false_lookup in Hfin as (k & f & Hk & Hy).
    pose proof (lookup_lt_Some _ _ _ Hk) as Hklt.
    destruct (lookup_lt_is_Some_2 sample k ltac:(lia)) as [d Hd].
    destruct (inv_cell _ HI _ _ Hd) as (it & Hit & Hok).
    rewrite Hk in Hok. destruct Hok as [Hfi _].
    destruct (f_state f) as [| t |] eqn:Hfs.
    + destruct (busy s <? concurrency) eqn:Hb.
      * exists Dispatch. simpl. rewrite Hb.
        destruct (list_find_elem_of (fun f => is_pending f) (futures s) f) as [kf Hfind].
        { eapply list_elem_of_lookup_2. exact Hk. }
        { unfold is_pending. rewrite Hfs. exact I. }
        rewrite Hfind. simpl. eexists. reflexivity.
      * apply Nat.ltb_ge in Hb.
        destruct (filter_length_pos is_running (futures s)) as (k' & f' & Hk' & Hrun).
        { unfold busy in Hb. lia. }
        unfold is_running in Hrun. destruct (f_state f') as [| t' |] eqn:Hfs'; try discriminate.
        exists (Work k'). eapply work_enabled; eassumption.
    + exists (Work k). eapply work_enabled; eassumption.
    + exists (Collect k). simpl.
      apply Nat.eqb_eq in Hall. rewrite Hall. rewrite Hk. simpl.
      unfold is_finished. rewrite Hfs, Hy. simpl.
      unfold collect. rewrite Hfi, Hit. simpl.
      destruct (index it <? length (items s)); simpl; eexists; reflexivity.
  - apply Nat.eqb_neq in Hall. exists Submit. simpl.
    destruct (lookup_lt_is_Some_2 (items s) (length (futures s))) as [r Hr]; [lia |].
    rewrite Hr. simpl. eexists. reflexivity.
Qed.

(** Every run can be carried to the end of the loop. *)
Lemma run_completes s :
  0 < concurrency -> Inv s ->
  exists acts s', run client concurrency acts s = Some s' /\ final s' = true.
Proof.
  intros HC. remember (fuel s) as m eqn:Hm. revert s Hm.
  induction m as [m IH] using lt_wf_ind. intros s -> HI.
  destruct (final s) eqn:Hfin.
  - exists [], s. auto.
  - destruct (progress s HC HI Hfin) as (a & s1 & Hstep).
    pose proof (step_fuel _ _ _ HI Hstep) as Hlt.
    assert (HI1 : Inv s1) by (eapply step_cell; eassumption).
    destruct (IH _ Hlt s1 eq_refl HI1) as (acts & s' & Hrun & Hfin').
    exists (a :: acts), s'. simpl. rewrite Hstep. auto.
Qed.

(** *** Statuses along a run *)

Lemma step_status a s s' k it :
  Inv s -> step client concurrency a s = Some s' ->
  heap s !! k = Some it -> terminal (status it) ->
  exists it', heap s' !! k = Some it' /\ status it' = status it.
Proof.
  intros HI Hstep Hk Hterm.
  destruct (step_cell _ _ _ HI Hstep)
    as (_ & j & d & itj & itj' & Hd & Hit & Hit' & Hcs & Hframe).
  destruct (decide (k = j)) as [-> | Hne].
  - exists itj'. split; [exact Hit' |].
    assert (itj = it) by congruence. subst itj.
    destruct (inv_cell _ HI _ _ Hd) as (it0 & Hit0 & Hok).
    assert (it0 = it) by congruence. subst it0.
    inversion Hcs; subst; try reflexivity.
    match goal with E : _ = futures s !! j |- _ => rewrite <- E in Hok end.
    simpl in Hok. destruct Hok as (_ & _ & Hst & _).
    eapply thread_step_status; eassumption.
  - exists it. destruct (Hframe k Hne) as [_ ->]. auto.
Qed.

Lemma is_terminal_spec it : is_terminal it = true <-> terminal (status it).
Proof.
  unfold is_terminal, terminal. rewrite orb_true_iff, !String.eqb_eq. reflexivity.
Qed.

Lemma count_terminal_split (l : list (BatchItem Dict)) :
  count_terminal l = count_status "completed" l + count_status "failed" l.
Proof.
  unfold count_terminal, count_status, is_terminal.
  induction l as [| it l IH]; simpl; [reflexivity |].
  destruct (String.eqb (status it) "completed") eqn:Hc; simpl.
  - apply String.eqb_eq in Hc. rewrite Hc. simpl. lia.
  - destruct (String.eqb (status it) "failed"); simpl; lia.
Qed.

(** A running item belongs to a busy worker. *)
Lemma running_is_busy s k it :
  Inv s -> heap s !! k = Some it -> status it = "running" ->
  exists f, futures s !! k = Some f /\ is_running f = true.
Proof.
  intros HI Hk Hst.
  destruct (lookup_lt_is_Some_2 sample k) as [d Hd].
  { apply lookup_lt_Some in Hk. rewrite (inv_heap _ HI) in Hk. exact Hk. }
  destruct (inv_cell _ HI _ _ Hd) as (it0 & Hit0 & Hok).
  assert (it0 = it) by congruence. subst it0.
  destruct (futures s !! k) as [f |]; simpl in Hok.
  - exists f. split; [reflexivity |]. destruct Hok as [_ Hok].
    unfold is_running. destruct (f_state f); [| reflexivity |].
    + destruct Hok as [-> _]. discriminate Hst.
    + subst it. pose proof (outcome_terminal k d) as [H | H]; congruence.
  - subst it. discriminate Hst.
Qed.

Lemma running_le_busy s :
  Inv s -> count_status "running" (items_of s) <= busy s.
Proof.
  intros HI. rewrite items_of_heap by exact HI. unfold count_status, busy.
  apply filter_length_le. intros k it Hk Hst. apply String.eqb_eq in Hst.
  eapply running_is_busy; eassumption.
Qed.

Lemma run_status acts : forall s s' k it,
  Inv s -> run client concurrency acts s = Some s' ->
  heap s !! k = Some it -> terminal (status it) ->
  exists it', heap s' !! k = Some it' /\ status it' = status it.
Proof.
  induction acts as [| a acts IH]; simpl; intros s s' k it HI Hrun Hk Hterm.
  - inversion Hrun; subst. eauto.
  - destruct (step client concurrency a s) as [s1 |] eqn:Hs; simpl in Hrun; [| discriminate].
    destruct (step_status _ _ _ _ _ HI Hs Hk Hterm) as (it1 & Hk1 & Hst1).
    assert (HI1 : Inv s1) by (eapply step_cell; eassumption).
    destruct (IH _ _ _ _ HI1 Hrun Hk1) as (it' & Hk' & Hst'); [congruence |].
    exists it'. split; [exact Hk' | congruence].
Qed.

Lemma count_terminal_step a s s' :
  Inv s -> step client concurrency a s = Some s' ->
  count_terminal (items_of s) <= count_terminal (items_of s').
Proof.
  intros HI Hstep.
  assert (HI' : Inv s') by (eapply step_cell; eassumption).
  rewrite !items_of_heap by assumption. unfold count_terminal.
  apply filter_length_le. intros k it Hk Hterm. apply is_terminal_spec in Hterm.
  destruct (step_status _ _ _ _ _ HI Hstep Hk Hterm) as (it' & Hk' & Hst').
  exists it'. split; [exact Hk' |]. apply is_terminal_spec. rewrite Hst'. exact Hterm.
Qed.

Lemma batch_result_length : length batch_result = length sample.
Proof. apply length_imap. Qed.

Lemma batch_result_lookup k :
  batch_result !! k = outcome k <$> sample !! k.
Proof. apply list_lookup_imap. Qed.

Lemma batch_result_index : index <$> batch_result = seq 0 (length sample).
Proof.
  apply list_eq. intros k. rewrite list_lookup_fmap, batch_result_lookup.
  destruct (sample !! k) as [d |] eqn:Hd; simpl.
  - rewrite outcome_index. symmetry. apply lookup_seq.
    split; [reflexivity | eapply lookup_lt_Some; exact Hd].
  - symmetry. apply lookup_seq_ge. apply lookup_ge_None. exact Hd.
Qed.

Lemma batch_result_data : data <$> batch_result = sample.
Proof.
  apply list_eq. intros k. rewrite list_lookup_fmap, batch_result_lookup.
  destruct (sample !! k) as [d |]; simpl; [| reflexivity].
  rewrite outcome_data. reflexivity.
Qed.

Lemma batch_result_terminal :
  Forall (fun it => terminal (status it)) batch_result.
Proof.
  apply Forall_lookup. intros k it. rewrite batch_result_lookup.
  destruct (sample !! k) as [d |]; simpl; intros H; inversion H; subst.
  apply outcome_terminal.
Qed.

End PoolProps.

(** ** Each row on its own *)

Section Independence.
Context {Dict : Type}.
Implicit Types (it : BatchItem Dict) (script : Script Dict).

(** [process_item] reads its script and nothing else of the client. *)
Lemma process_item_ext script script' :
  (forall m, script m = script' m) ->
  forall it n, process_item script it n = process_item script' it n.
Proof.
  intros Hext it. induction it as [it IH] using retry_ind. intros n.
  rewrite (process_item_eq script), (process_item_eq script'), <- Hext.
  destruct (try_block (script n) it) as [it1 | it1 | e it1] eqn:Hexit; try reflexivity.
  apply try_block_rate_limit_retries in Hexit.
  unfold on_rate_limit. destruct (lt_dec _ _); [| reflexivity].
  rewrite IH by (simpl; lia). reflexivity.
Qed.

Lemma outcome_ext (client client' : nat -> Script Dict) k d :
  (forall m, client k m = client' k m) -> outcome client k d = outcome client' k d.
Proof. intros H. unfold outcome. rewrite (process_item_ext _ _ H). reflexivity. Qed.

(** A terminal failure ends the call at once: failed, with the cause as the
    error, no sleep and no further attempt. *)
Lemma process_item_raises script it n e :
  raises (script n) = Some e ->
  let out := process_item script it n in
  status out.1 = "failed" /\ error out.1 = Some e /\
  retries out.1 = retries it /\ out.2 = [].
Proof.
  intros Hr. simpl. rewrite process_item_eq.
  destruct (try_block_raises _ it _ Hr) as (it' & -> & Hret & _). simpl. auto.
Qed.

Lemma process_item_succeeds script it n outs :
  succeeds (script n) = Some outs ->
  let out := process_item script it n in
  status out.1 = "completed" /\ result out.1 = outs /\
  retries out.1 = retries it /\ out.2 = [].
Proof.
  intros Hs. simpl. rewrite process_item_eq.
  destruct (script n) as [| e | eid [| e | r]]; simpl in Hs; try discriminate Hs.
  simpl. unfold finish_wait.
  destruct (String.eqb (r_status r) "completed"); inversion Hs; subst. simpl. auto.
Qed.

End Independence.

(** ** Rate-limited attempts followed by another outcome *)

Section RetryPrefix.
Context {Dict : Type}.
Implicit Types (it : BatchItem Dict) (script : Script Dict).

(** [n] transient failures in a row, within the retry budget, cost [n]
    retries and [n] sleeps and leave the call at its next attempt. *)
Lemma process_item_transient_prefix script n : forall it m,
  (forall j, j < n -> is_transient (script (m + j)) = true) ->
  retries it + n <= MAX_RETRIES ->
  exists it',
    retries it' = retries it + n /\ index it' = index it /\ data it' = data it /\
    (process_item script it m).1 = (process_item script it' (m + n)).1 /\
    (process_item script it m).2 =
      (map backoff (seq (retries it + 1) n) ++ (process_item script it' (m + n)).2)%list.
Proof.
  induction n as [| n IH]; intros it m Hall Hle.
  - exists it. rewrite !Nat.add_0_r. simpl. auto.
  - assert (H0 : is_transient (script m) = true).
    { rewrite <- (Nat.add_0_r m). apply Hall. lia. }
    destruct (try_block_transient _ it H0) as (it1 & Hexit & Hr & Hi & Hd & _).
    destruct (IH (set_retries (retries it1 + 1) it1) (m + 1)) as (it' & Hr' & Hi' & Hd' & H1 & H2).
    { intros j Hj. replace (m + 1 + j) with (m + S j) by lia. apply Hall. lia. }
    { simpl. lia. }
    simpl in Hr', Hi', Hd', H2.
    exists it'. replace (m + S n) with (m + 1 + n) by lia.
    repeat split; try congruence; try lia.
    + rewrite (process_item_eq script it m), Hexit. unfold on_rate_limit.
      destruct (lt_dec _ _); [| lia]. rewrite fst_let_pair. exact H1.
    + rewrite (process_item_eq script it m), Hexit. unfold on_rate_limit.
      destruct (lt_dec _ _); [| lia]. rewrite snd_let_pair, H2. simpl.
      rewrite Hr. replace (retries it + 1 + 1) with (S (retries it + 1)) by lia.
      reflexivity.
Qed.

End RetryPrefix.

(** ** Single steps of the pool *)

Section StepFacts.
Context {Dict : Type}.
Variable client : nat -> Script Dict.
Variable concurrency : nat.
Implicit Types (s : State Dict) (f : Future Dict).

Lemma run_app acts1 : forall acts2 s,
  run client concurrency (acts1 ++ acts2) s =
  run client concurrency acts1 s ≫= run client concurrency acts2.
Proof.
  induction acts1 as [| a acts1 IH]; intros acts2 s; simpl; [reflexivity |].
  destruct (step client concurrency a s) as [s1 |]; simpl; [apply IH | reflexivity].
Qed.

(** Handing out a queued item needs a free worker and disturbs no other. *)
Lemma dispatch_effect s s' k f :
  step client concurrency Dispatch s = Some s' ->
  futures s !! k = Some f -> is_pending f = false ->
  busy s < concurrency /\ futures s' !! k = Some f /\ busy s' = busy s + 1.
Proof.
  simpl. intros Hstep Hk Hnp.
  destruct (busy s <? concurrency) eqn:Hb; [| discriminate].
  apply Nat.ltb_lt in Hb.
  destruct (list_find _ (futures s)) as [[j g] |] eqn:Hfind; simpl in Hstep; [| discriminate].
  inversion Hstep; subst s'; clear Hstep.
  apply list_find_Some in Hfind as (Hj & Hpend & _).
  split; [exact Hb |]. simpl. split.
  - rewrite list_lookup_insert_ne; [exact Hk |].
    intros ->. rewrite Hj in Hk. inversion Hk; subst.
    rewrite Hnp in Hpend. exact Hpend.
  - unfold busy. simpl.
    pose proof (filter_length_insert is_running (futures s) j _
                  (mkFuture (f_item g) (FRunning (mkThread (@L64 Dict) 0)) false) Hj) as Hc.
    assert (Hg : is_running g = false).
    { unfold is_pending in Hpend. unfold is_running.
      destruct (f_state g); try contradiction. reflexivity. }
    rewrite Hg in Hc.
    change (is_running (mkFuture _ (FRunning _) _)) with true in Hc. cbv iota in Hc. lia.
Qed.

(** Only [Dispatch] takes an item out of the queue. *)
Lemma pending_stays a s s' k f :
  a <> Dispatch -> step client concurrency a s = Some s' ->
  futures s !! k = Some f -> is_pending f = true ->
  futures s' !! k = Some f.
Proof.
  intros Ha Hstep Hk Hp. unfold is_pending in Hp.
  destruct a as [| | j | j]; simpl in Hstep; [| contradiction | |].
  - destruct (items s !! _); simpl in Hstep; inversion Hstep; subst; simpl.
    rewrite lookup_app_l; [exact Hk | eapply lookup_lt_Some; exact Hk].
  - destruct (futures s !! j) as [g |] eqn:Hj; simpl in Hstep; [| discriminate].
    destruct (f_state g) as [| t |] eqn:Hg; try discriminate.
    assert (j <> k).
    { intros ->. rewrite Hj in Hk. inversion Hk; subst. rewrite Hg in Hp. discriminate. }
    destruct (heap s !! f_item g); simpl in Hstep; [| discriminate].
    destruct (thread_step _ _ _) as [[t' it'] |]; inversion Hstep; subst; simpl;
      rewrite list_lookup_insert_ne by assumption; exact Hk.
  - destruct (_ =? _); [| discriminate].
    destruct (futures s !! j) as [g |] eqn:Hj; simpl in Hstep; [| discriminate].
    destruct (is_finished g && negb (f_yielded g)) eqn:Hfin; [| discriminate].
    apply andb_prop in Hfin as [Hfin _]. unfold is_finished in Hfin.
    assert (j <> k).
    { intros ->. rewrite Hj in Hk. inversion Hk; subst.
      destruct (f_state f); discriminate. }
    unfold collect in Hstep.
    destruct (heap s !! f_item g); simpl in Hstep; [| discriminate].
    destruct (_ <? _); simpl in Hstep; inversion Hstep; subst; simpl;
      rewrite list_lookup_insert_ne by assumption; exact Hk.
Qed.

Lemma pending_needs_dispatch acts : forall s s' k f,
  run client concurrency acts s = Some s' ->
  futures s !! k = Some f -> is_pending f = true ->
  ~ In Dispatch acts ->
  futures s' !! k = Some f.
Proof.
  induction acts as [| a acts IH]; simpl; intros s s' k f Hrun Hk Hp Hno.
  - inversion Hrun; subst. exact Hk.
  - destruct (step client concurrency a s) as [s1 |] eqn:Hs; simpl in Hrun; [| discriminate].
    eapply IH; [exact Hrun | | exact Hp | tauto].
    eapply pending_stays; [| exact Hs | exact Hk | exact Hp]. intros ->. tauto.
Qed.

Lemma final_not_pending s k f :
  final s = true -> futures s !! k = Some f -> f_yielded f = true.
Proof.
  unfold final. intros H Hk. apply andb_prop in H as [_ H].
  eapply forallb_lookup in H; [exact H | exact Hk].
Qed.

End StepFacts.

(** A queued item keeps the loop of [main] going until a worker took it. *)
Lemma queued_item_is_dispatched
    {Dict : Type} (client : nat -> Script Dict) (C : nat) (sample : list Dict)
    (rest : list Action) (s s' : State Dict) (k : nat) (f : Future Dict) :
  Inv client C sample s' ->
  run client C rest s = Some s' -> final s' = true ->
  futures s !! k = Some f -> is_pending f = true ->
  In Dispatch rest.
Proof.
  intros HI' Hrest Hfin Hk Hp.
  destruct (in_dec (fun a b : Action => ltac:(decide equality; apply Nat.eq_dec))
              Dispatch rest) as [Hin | Hno]; [exact Hin | exfalso].
  pose proof (pending_needs_dispatch _ _ _ _ _ _ _ Hrest Hk Hp Hno) as Hk'.
  pose proof (final_not_pending _ _ _ Hfin Hk') as Hy.
  pose proof (lookup_lt_Some _ _ _ Hk') as Hlt.
  destruct (lookup_lt_is_Some_2 sample k) as [d Hd].
  { pose proof (inv_futures _ _ _ _ HI'). lia. }
  destruct (inv_cell _ _ _ _ HI' _ _ Hd) as (it & _ & Hok).
  rewrite Hk' in Hok. simpl in Hok. destruct Hok as [_ Hok].
  unfold is_pending in Hp. destruct (f_state f); try discriminate Hp.
  destruct Hok as [_ Hn]. congruence.
Qed.

(** ** Counting the report *)

Section Counting.
Context {Dict : Type}.
Variable client : nat -> Script Dict.

Lemma filter_length_negb {A} (p : A -> bool) (l : list A) :
  length (List.filter p l) + length (List.filter (fun x => negb (p x)) l) = length l.
Proof.
  induction l as [| a l IH]; simpl; [reflexivity |].
  destruct (p a); simpl; lia.
Qed.

Lemma outcome_success k d :
  is_success (client k 0) = true -> status (outcome client k d) = "completed".
Proof.
  unfold is_success. destruct (succeeds (client k 0)) as [outs |] eqn:Hs; [| discriminate].
  intros _. unfold outcome.
  destruct (process_item_succeeds (client k) (new_item k d) 0 outs Hs) as (H & _). exact H.
Qed.

Lemma outcome_permanent_failure k d :
  fails_permanently (client k 0) = true -> status (outcome client k d) = "failed".
Proof.
  unfold outcome. rewrite process_item_eq.
  destruct (client k 0) as [| e | eid [| e | r]]; simpl; try discriminate; try reflexivity.
  unfold finish_wait. destruct (String.eqb (r_status r) "completed"); [discriminate |].
  reflexivity.
Qed.

(** When every row either succeeds or fails for good at its first attempt,
    the report counts the rows of each kind. *)
Lemma batch_result_counts (sample : list Dict) :
  (forall k, k < length sample ->
             fails_permanently (client k 0) = negb (is_success (client k 0))) ->
  count_status "failed" (batch_result client sample)
    = length (List.filter (fun k => fails_permanently (client k 0)) (seq 0 (length sample))) /\
  count_status "completed" (batch_result client sample)
    = length (List.filter (fun k => negb (fails_permanently (client k 0)))
                          (seq 0 (length sample))).
Proof.
  intros Hcls.
  assert (Hst : forall k it, batch_result client sample !! k = Some it ->
            status it = if fails_permanently (client k 0) then "failed" else "completed").
  { intros k it. rewrite batch_result_lookup.
    destruct (sample !! k) as [d |] eqn:Hd; simpl; intros H; inversion H; subst.
    pose proof (Hcls k (lookup_lt_Some _ _ _ Hd)) as Hk.
    destruct (fails_permanently (client k 0)) eqn:Hf.
    - apply outcome_permanent_failure. exact Hf.
    - apply outcome_success. destruct (is_success (client k 0)); [reflexivity | discriminate]. }
  assert (Hseq : forall k j, seq 0 (length sample) !! k = Some j -> j = k /\ k < length sample).
  { intros k j H. apply lookup_seq in H. lia. }
  assert (Hlk : forall k, k < length sample ->
            exists it, batch_result client sample !! k = Some it).
  { intros k Hk. apply lookup_lt_is_Some_2. rewrite batch_result_length. exact Hk. }
  unfold count_status. split; apply Nat.le_antisymm; apply filter_length_le.
  - intros k it Hk Hs. apply String.eqb_eq in Hs. rewrite (Hst _ _ Hk) in Hs.
    exists k. split.
    + apply lookup_seq. split; [reflexivity |].
      apply lookup_lt_Some in Hk. rewrite batch_result_length in Hk. exact Hk.
    + destruct (fails_permanently (client k 0)); [reflexivity | discriminate].
  - intros k j Hk Hf. destruct (Hseq _ _ Hk) as [-> Hlt].
    destruct (Hlk _ Hlt) as [it Hit]. exists it. split; [exact Hit |].
    rewrite (Hst _ _ Hit), Hf. reflexivity.
  - intros k it Hk Hs. apply String.eqb_eq in Hs. rewrite (Hst _ _ Hk) in Hs.
    exists k. split.
    + apply lookup_seq. split; [reflexivity |].
      apply lookup_lt_Some in Hk. rewrite batch_result_length in Hk. exact Hk.
    + destruct (fails_permanently (client k 0)); [discriminate | reflexivity].
  - intros k j Hk Hf. destruct (Hseq _ _ Hk) as [-> Hlt].
    destruct (Hlk _ Hlt) as [it Hit]. exists it. split; [exact Hit |].
    rewrite (Hst _ _ Hit). destruct (fails_permanently (client k 0)); [discriminate | reflexivity].
Qed.

End Counting.

(** * The claims *)

(** C1. For every input of N payloads and every concurrency C with
    1 <= C <= N, the run comes to its end: no schedule is longer than the
    fuel of the initial state, a step is enabled as long as the loop of
    [main] is not over, so some schedule reaches the end; and at the end
    [items] holds exactly N items whose indices are 0, 1, ..., N-1 in this
    order and whose payloads are the input rows in input order. *)
Theorem C1_run_returns_every_item_in_input_order
    {Dict : Type} (client : nat -> Script Dict) (sample : list Dict) (C : nat) :
  1 <= C -> C <= length sample ->
  (exists acts s, run client C acts (init sample) = Some s /\ final s = true) /\
  (forall acts s,
      run client C acts (init sample) = Some s ->
      length acts <= fuel sample (init sample) /\
      (final s = false -> exists a s', step client C a s = Some s')) /\
  (forall acts s,
      run client C acts (init sample) = Some s -> final s = true ->
      length (items_of s) = length sample /\
      index <$> items_of s = seq 0 (length sample) /\
      data <$> items_of s = sample).
Proof.
  intros HC _. split; [| split].
  - apply (run_completes client C sample); [lia | apply Inv_init].
  - intros acts s Hrun.
    assert (HI : Inv client C sample s) by (apply reachable_Inv; exists acts; exact Hrun).
    split.
    + pose proof (run_fuel client C sample acts _ _ (Inv_init client C sample) Hrun). lia.
    + intros Hfin. apply (progress client C sample); [lia | exact HI | exact Hfin].
  - intros acts s Hrun Hfin.
    assert (HI : Inv client C sample s) by (apply reachable_Inv; exists acts; exact Hrun).
    rewrite (final_items _ _ _ _ HI Hfin).
    split; [apply batch_result_length |].
    split; [apply batch_result_index | apply batch_result_data].
Qed.

(** C1, witness: the two-row sample with two workers. *)
Lemma C1_witness :
  1 <= 2 /\ 2 <= length pair_sample /\
  (exists acts s, run pair_client 2 acts (init pair_sample) = Some s /\ final s = true) /\
  (forall acts s,
      run pair_client 2 acts (init pair_sample) = Some s ->
      length acts <= fuel pair_sample (init pair_sample) /\
      (final s = false -> exists a s', step pair_client 2 a s = Some s')) /\
  (forall acts s,
      run pair_client 2 acts (init pair_sample) = Some s -> final s = true ->
      length (items_of s) = length pair_sample /\
      index <$> items_of s = seq 0 (length pair_sample) /\
      data <$> items_of s = pair_sample).
Proof.
  split; [lia |]. split; [simpl; lia |].
  apply (C1_run_returns_every_item_in_input_order pair_client pair_sample 2);
    simpl; lia.
Defined.

(** C2. When the run has come to its end, every input row appears exactly
    once in the result, in its place, and every item is "completed" or
    "failed", never "pending" or "running", whatever the unit of work did. *)
Theorem C2_every_item_ends_completed_or_failed
    {Dict : Type} (client : nat -> Script Dict) (sample : list Dict) (C : nat)
    (acts : list Action) (s : State Dict) :
  run client C acts (init sample) = Some s -> final s = true ->
  data <$> items_of s = sample /\
  index <$> items_of s = seq 0 (length sample) /\
  Forall (fun it => (status it = "completed" \/ status it = "failed") /\
                    status it <> "pending" /\ status it <> "running")
         (items_of s).
Proof.
  intros Hrun Hfin.
  assert (HI : Inv client C sample s) by (apply reachable_Inv; exists acts; exact Hrun).
  rewrite (final_items _ _ _ _ HI Hfin).
  split; [apply batch_result_data |]. split; [apply batch_result_index |].
  eapply Forall_impl; [apply batch_result_terminal |].
  intros it Ht. split; [exact Ht |].
  unfold terminal in Ht.
  split; intros E; rewrite E in Ht; destruct Ht as [Ht | Ht]; discriminate Ht.
Qed.

(** C2, witness: a complete run of the two-row sample. *)
Lemma C2_witness :
  exists s,
    run pair_client 2 (pair_asleep ++ pair_rest) (init pair_sample) = Some s /\
    final s = true /\
    data <$> items_of s = pair_sample /\
    index <$> items_of s = seq 0 (length pair_sample) /\
    Forall (fun it => (status it = "completed" \/ status it = "failed") /\
                      status it <> "pending" /\ status it <> "running")
           (items_of s).
Proof.
  eexists. split; [vm_compute; reflexivity |]. split; [vm_compute; reflexivity |].
  apply (C2_every_item_ends_completed_or_failed pair_client pair_sample 2
           (pair_asleep ++ pair_rest));
    vm_compute; reflexivity.
Defined.

(** C3, counterexample: a row that is rate limited on every attempt ends with
    the message "Rate limited after 3 retries", capital R, which is not the
    string of the claim. *)
Lemma C3_counterexample :
  ~ C3_as_stated (fun _ => ExecRateLimit) (new_item 0 (person "a" "b" "c")).
Proof.
  unfold C3_as_stated. intros (_ & _ & _ & He). vm_compute in He. discriminate He.
Qed.

(** C3, amended. An item whose every attempt is rate limited is retried
    exactly [MAX_RETRIES] times, sleeping [RETRY_DELAY * 2^(k-1)] before the
    k-th retry, and is then marked "failed" with the error
    "Rate limited after 3 retries" (capital R, 3 being [MAX_RETRIES]). *)
Theorem C3_rate_limited_item_retried_then_failed
    {Dict : Type} (script : Script Dict) (it : BatchItem Dict) (n : nat) :
  (forall m, is_transient (script m) = true) ->
  retries it = 0 ->
  let out := process_item script it n in
  retries out.1 = MAX_RETRIES /\
  length out.2 = MAX_RETRIES /\
  out.2 = map (fun k => (RETRY_DELAY * float_of_nat (2 ^ (k - 1)))%float)
              (seq 1 MAX_RETRIES) /\
  status out.1 = "failed" /\
  error out.1 = Some ("Rate limited after " ++ str_of_nat MAX_RETRIES ++ " retries") /\
  error out.1 = Some "Rate limited after 3 retries".
Proof.
  intros Hall Hr.
  destruct (process_item_always_transient script Hall it n) as (Hs & He & Hn & _ & Hd).
  { lia. }
  cbv zeta in *. rewrite Hr in Hd.
  split; [exact Hn |]. split; [rewrite Hd; reflexivity |].
  split; [rewrite Hd; reflexivity |]. split; [exact Hs |].
  split; [exact He | rewrite He; reflexivity].
Qed.

(** C3, witness: a row whose every call to [execute] is rate limited. *)
Lemma C3_witness :
  let out := process_item (fun _ => @ExecRateLimit Row) (new_item 0 (person "a" "b" "c")) 0 in
  retries out.1 = MAX_RETRIES /\
  length out.2 = MAX_RETRIES /\
  out.2 = map (fun k => (RETRY_DELAY * float_of_nat (2 ^ (k - 1)))%float)
              (seq 1 MAX_RETRIES) /\
  status out.1 = "failed" /\
  error out.1 = Some ("Rate limited after " ++ str_of_nat MAX_RETRIES ++ " retries") /\
  error out.1 = Some "Rate limited after 3 retries".
Proof.
  apply (C3_rate_limited_item_retried_then_failed
           (fun _ => @ExecRateLimit Row) (new_item 0 (person "a" "b" "c")) 0).
  - intros m. reflexivity.
  - reflexivity.
Defined.

(** C4. An item whose first call is rate limited and whose second call
    succeeds ends "completed", with [retries] equal to 1 and with the outputs
    of the second call as its result. *)
Theorem C4_success_on_second_attempt
    {Dict : Type} (script : Script Dict) (it : BatchItem Dict) (outs : option Dict) :
  retries it = 0 ->
  is_transient (script 0) = true ->
  succeeds (script 1) = Some outs ->
  let out := process_item script it 0 in
  status out.1 = "completed" /\ retries out.1 = 1 /\ result out.1 = outs /\
  out.2 = [backoff 1].
Proof.
  intros Hr H0 H1.
  destruct (process_item_transient_prefix script 1 it 0) as (it' & Hr' & _ & _ & E1 & E2).
  { intros j Hj. replace j with 0 by lia. exact H0. }
  { rewrite Hr. unfold MAX_RETRIES. lia. }
  destruct (process_item_succeeds script it' 1 outs H1) as (Hs & Hres & Hret & Hsl).
  simpl in *. rewrite E1, E2, Hs, Hres, Hret, Hsl, Hr', Hr. auto.
Qed.

(** C4, witness: row 0 of the two-row sample. *)
Lemma C4_witness :
  let out := process_item (pair_client 0) (new_item 0 [("name", "a")]) 0 in
  status out.1 = "completed" /\ retries out.1 = 1 /\
  result out.1 = Some [("sent", "yes")] /\ out.2 = [backoff 1].
Proof.
  apply (C4_success_on_second_attempt (pair_client 0) (new_item 0 [("name", "a")])
           (Some [("sent", "yes")])); reflexivity.
Defined.

(** C5. At every point of a run with concurrency C, at most C items are
    "running" and at most C workers hold an item; a worker asleep in its
    backoff is one of them: while it sleeps an item is handed out only if the
    count, the sleeper included, is below C, and the sleeper keeps its place. *)
Theorem C5_at_most_C_items_in_flight
    {Dict : Type} (client : nat -> Script Dict) (sample : list Dict) (C : nat)
    (acts : list Action) (s : State Dict) :
  run client C acts (init sample) = Some s ->
  p_running (update_progress (items_of s)) <= busy s /\
  busy s <= C /\
  (forall k f,
      futures s !! k = Some f -> sleeping f = true ->
      is_running f = true /\
      (busy s = C -> step client C Dispatch s = None) /\
      (forall s', step client C Dispatch s = Some s' ->
                  busy s < C /\ futures s' !! k = Some f /\ busy s' = busy s + 1)).
Proof.
  intros Hrun.
  assert (HI : Inv client C sample s) by (apply reachable_Inv; exists acts; exact Hrun).
  split; [apply (running_le_busy client C sample); exact HI |].
  split; [exact (inv_busy _ _ _ _ HI) |].
  intros k f Hk Hsl. unfold sleeping in Hsl.
  destruct (f_state f) as [| t |] eqn:Hfs; try discriminate Hsl.
  split; [unfold is_running; rewrite Hfs; reflexivity |]. split.
  - intros Hfull. simpl. rewrite Hfull, Nat.ltb_irrefl. reflexivity.
  - intros s' Hstep. eapply dispatch_effect; [exact Hstep | exact Hk |].
    unfold is_pending. rewrite Hfs. reflexivity.
Qed.

(** C5, witness: both workers busy, the one of row 0 asleep in its backoff. *)
Lemma C5_witness :
  exists s,
    run pair_client 2 pair_asleep (init pair_sample) = Some s /\
    (exists f, futures s !! 0 = Some f /\ sleeping f = true) /\
    p_running (update_progress (items_of s)) <= busy s /\
    busy s <= 2 /\
    (forall k f,
        futures s !! k = Some f -> sleeping f = true ->
        is_running f = true /\
        (busy s = 2 -> step pair_client 2 Dispatch s = None) /\
        (forall s', step pair_client 2 Dispatch s = Some s' ->
                    busy s < 2 /\ futures s' !! k = Some f /\ busy s' = busy s + 1)).
Proof.
  eexists. split; [vm_compute; reflexivity |].
  split; [eexists; split; vm_compute; reflexivity |].
  apply (C5_at_most_C_items_in_flight pair_client pair_sample 2 pair_asleep).
  vm_compute. reflexivity.
Defined.

(** C6, amended.  The script has no stop request.  From any point of a run,
    the loop of [main] ends only after every queued item was handed out to a
    worker, and no item is "pending" in the final report; on the way an item
    that is "completed" or "failed" keeps that status, and an item whose worker
    has returned keeps every field. *)
Theorem C6_no_stop_every_item_is_processed
    {Dict : Type} (client : nat -> Script Dict) (sample : list Dict) (C : nat)
    (before rest : list Action) (s s' : State Dict) :
  run client C before (init sample) = Some s ->
  run client C rest s = Some s' ->
  final s' = true ->
  Forall (fun it => status it <> "pending") (items_of s') /\
  (forall k f, futures s !! k = Some f -> is_pending f = true -> In Dispatch rest) /\
  (forall k it, items_of s !! k = Some it -> terminal (status it) ->
                exists it', items_of s' !! k = Some it' /\ status it' = status it) /\
  (forall k f it, futures s !! k = Some f -> is_finished f = true ->
                  items_of s !! k = Some it -> items_of s' !! k = Some it).
Proof.
  intros Hrun Hrest Hfin.
  assert (HI : Inv client C sample s) by (apply reachable_Inv; exists before; exact Hrun).
  assert (HI' : Inv client C sample s') by (eapply run_Inv; eassumption).
  rewrite (items_of_heap _ _ _ _ HI), (items_of_heap _ _ _ _ HI').
  repeat split.
  - rewrite (final_heap _ _ _ _ HI' Hfin).
    eapply Forall_impl; [apply batch_result_terminal |].
    intros it [Ht | Ht] E; rewrite E in Ht; discriminate Ht.
  - intros k f Hk Hp.
    eapply (queued_item_is_dispatched client C sample rest s s'); eassumption.
  - intros k it Hk Ht. eapply (run_status client C sample rest s s'); eassumption.
  - intros k f it Hk Hf Hit.
    rewrite (final_heap _ _ _ _ HI' Hfin), batch_result_lookup.
    destruct (lookup_lt_is_Some_2 sample k) as [d Hd].
    { apply lookup_lt_Some in Hit. rewrite (inv_heap _ _ _ _ HI) in Hit. exact Hit. }
    rewrite Hd. simpl. f_equal.
    destruct (inv_cell _ _ _ _ HI _ _ Hd) as (it0 & Hit0 & Hok).
    assert (it0 = it) by congruence. subst it0.
    rewrite Hk in Hok. simpl in Hok. destruct Hok as [_ Hok].
    unfold is_finished in Hf. destruct (f_state f); try discriminate Hf.
    symmetry. exact Hok.
Qed.

(** C6, witness: the two-row run, cut where row 0 sleeps and row 1 has just
    been handed out. *)
Lemma C6_witness :
  exists s s',
    run pair_client 2 pair_asleep (init pair_sample) = Some s /\
    run pair_client 2 pair_rest s = Some s' /\
    final s' = true /\
    Forall (fun it => status it <> "pending") (items_of s') /\
    (forall k f, futures s !! k = Some f -> is_pending f = true -> In Dispatch pair_rest) /\
    (forall k it, items_of s !! k = Some it -> terminal (status it) ->
                  exists it', items_of s' !! k = Some it' /\ status it' = status it) /\
    (forall k f it, futures s !! k = Some f -> is_finished f = true ->
                    items_of s !! k = Some it -> items_of s' !! k = Some it).
Proof.
  eexists. eexists.
  split; [vm_compute; reflexivity |].
  split; [vm_compute; reflexivity |].
  split; [vm_compute; reflexivity |].
  apply (C6_no_stop_every_item_is_processed pair_client pair_sample 2 pair_asleep pair_rest);
    vm_compute; reflexivity.
Defined.

(** C6, counterexample: two rows and one worker, stopped when row 0 has been
    handed out and row 1 is still queued.  No continuation without a further
    [Dispatch] reaches the final report, let alone one showing row 1 as
    "pending". *)
Lemma C6_counterexample :
  ~ C6_as_stated pair_client 1 pair_sample [Submit; Submit; Dispatch].
Proof.
  intros H.
  destruct (H _ eq_refl) as (rest & s' & Hrest & Hfin & Hno & _).
  apply Hno.
  eapply (queued_item_is_dispatched pair_client 1 pair_sample rest _ s' 1);
    [ | exact Hrest | exact Hfin | reflexivity | reflexivity ].
  apply reachable_Inv. exists ([Submit; Submit; Dispatch] ++ rest)%list.
  rewrite run_app. exact Hrest.
Qed.

(** C7. An item whose unit of work raises a terminal failure, on the first
    attempt or after rate-limited ones, is marked "failed" with the cause as
    its error and is not retried again; the run still comes to its end, and
    the other items are what they would be had that item behaved in any other
    way. *)
Theorem C7_terminal_failure_is_not_retried_and_stays_local
    {Dict : Type} (client : nat -> Script Dict) (sample : list Dict) (C : nat)
    (k n : nat) (d : Dict) (e : string) (acts : list Action) (s : State Dict) :
  sample !! k = Some d ->
  (forall m, m < n -> is_transient (client k m) = true) ->
  n <= MAX_RETRIES ->
  raises (client k n) = Some e ->
  run client C acts (init sample) = Some s -> final s = true ->
  (exists it, items_of s !! k = Some it /\
              status it = "failed" /\ error it = Some e /\ retries it = n) /\
  (forall it, (process_item (client k) it n).2 = [] /\
              retries (process_item (client k) it n).1 = retries it) /\
  length (items_of s) = length sample /\
  (1 <= C -> exists acts0 s0, run client C acts0 (init sample) = Some s0 /\ final s0 = true) /\
  (forall client' acts' s',
      (forall j, j <> k -> forall m, client' j m = client j m) ->
      run client' C acts' (init sample) = Some s' -> final s' = true ->
      forall j, j <> k -> items_of s' !! j = items_of s !! j).
Proof.
  intros Hd Hpre Hn Hr Hrun Hfin.
  assert (HI : Inv client C sample s) by (apply reachable_Inv; exists acts; exact Hrun).
  rewrite (final_items _ _ _ _ HI Hfin).
  split; [| split; [| split; [| split]]].
  - exists (outcome client k d). rewrite batch_result_lookup, Hd.
    split; [reflexivity |]. unfold outcome.
    destruct (process_item_transient_prefix (client k) n (new_item k d) 0)
      as (it' & Hr' & _ & _ & E1 & _); [exact Hpre | simpl; lia |].
    destruct (process_item_raises (client k) it' n e Hr) as (Hs & He & Hret & _).
    simpl in Hr', E1. rewrite E1, Hs, He, Hret, Hr'. auto.
  - intros it. destruct (process_item_raises (client k) it n e Hr) as (_ & _ & Hret & Hsl).
    auto.
  - apply batch_result_length.
  - intros HC. apply (run_completes client C sample); [lia | apply Inv_init].
  - intros client' acts' s' Hsame Hrun' Hfin' j Hj.
    assert (HI' : Inv client' C sample s')
      by (apply reachable_Inv; exists acts'; exact Hrun').
    rewrite (final_items _ _ _ _ HI' Hfin'), !batch_result_lookup.
    destruct (sample !! j) as [dj |]; simpl; [| reflexivity].
    f_equal. apply outcome_ext. intros m. apply Hsame. exact Hj.
Qed.

(** C7, witness: row 1 of the two-row sample raises at its first attempt. *)
Lemma C7_witness :
  exists s,
    run pair_client 2 (pair_asleep ++ pair_rest) (init pair_sample) = Some s /\
    final s = true /\
    (exists it, items_of s !! 1 = Some it /\
                status it = "failed" /\ error it = Some "connection refused" /\
                retries it = 0) /\
    (forall it, (process_item (pair_client 1) it 0).2 = [] /\
                retries (process_item (pair_client 1) it 0).1 = retries it) /\
    length (items_of s) = length pair_sample /\
    (1 <= 2 -> exists acts0 s0,
        run pair_client 2 acts0 (init pair_sample) = Some s0 /\ final s0 = true) /\
    (forall client' acts' s',
        (forall j, j <> 1 -> forall m, client' j m = pair_client j m) ->
        run client' 2 acts' (init pair_sample) = Some s' -> final s' = true ->
        forall j, j <> 1 -> items_of s' !! j = items_of s !! j).
Proof.
  eexists. split; [vm_compute; reflexivity |]. split; [vm_compute; reflexivity |].
  apply (C7_terminal_failure_is_not_retried_and_stays_local
           pair_client pair_sample 2 1 0 [("name", "b")] "connection refused"
           (pair_asleep ++ pair_rest)).
  - reflexivity.
  - intros m Hm. lia.
  - unfold MAX_RETRIES. lia.
  - reflexivity.
  - vm_compute. reflexivity.
  - vm_compute. reflexivity.
Defined.

(** C8. No step of a run takes an item out of a terminal state: an item that
    is "completed" or "failed" has the same status after the step, so the
    number of such items never goes down. *)
Theorem C8_terminal_states_are_never_left
    {Dict : Type} (client : nat -> Script Dict) (sample : list Dict) (C : nat)
    (acts : list Action) (a : Action) (s s' : State Dict) :
  run client C acts (init sample) = Some s ->
  step client C a s = Some s' ->
  (forall k it, items_of s !! k = Some it ->
                status it = "completed" \/ status it = "failed" ->
                exists it', items_of s' !! k = Some it' /\ status it' = status it) /\
  count_status "completed" (items_of s) + count_status "failed" (items_of s)
  <= count_status "completed" (items_of s') + count_status "failed" (items_of s').
Proof.
  intros Hrun Hstep.
  assert (HI : Inv client C sample s) by (apply reachable_Inv; exists acts; exact Hrun).
  assert (HI' : Inv client C sample s') by (eapply step_cell; eassumption).
  split.
  - rewrite (items_of_heap _ _ _ _ HI), (items_of_heap _ _ _ _ HI').
    intros k it Hk Ht. eapply (step_status client C sample a s s'); eassumption.
  - rewrite <- !count_terminal_split.
    eapply (count_terminal_step client C sample); eassumption.
Qed.

(** C8, witness: the step in which row 0, already "completed", stores its
    result while row 1 is "failed". *)
Lemma C8_witness :
  exists s s',
    run pair_client 2 pair_midway (init pair_sample) = Some s /\
    step pair_client 2 (Work 0) s = Some s' /\
    (forall k it, items_of s !! k = Some it ->
                  status it = "completed" \/ status it = "failed" ->
                  exists it', items_of s' !! k = Some it' /\ status it' = status it) /\
    count_status "completed" (items_of s) + count_status "failed" (items_of s)
    <= count_status "completed" (items_of s') + count_status "failed" (items_of s').
Proof.
  eexists. eexists.
  split; [vm_compute; reflexivity |]. split; [vm_compute; reflexivity |].
  apply (C8_terminal_states_are_never_left pair_client pair_sample 2 pair_midway (Work 0));
    vm_compute; reflexivity.
Defined.

(** C9. The eight sample rows run with concurrency 5, the unit of work
    failing for good on exactly two rows and succeeding on the other six: the
    run comes to its end and the report shows 8 items, 6 completed, 2 failed
    and a success rate of 75.0. *)
Theorem C9_sample_run_reports_six_of_eight
    (client : nat -> Script Row) (acts : list Action) (s : State Row) :
  (forall k, k < 8 -> fails_permanently (client k 0) = negb (is_success (client k 0))) ->
  length (List.filter (fun k => fails_permanently (client k 0)) (seq 0 8)) = 2 ->
  run client CONCURRENCY acts (init SAMPLE_DATA) = Some s -> final s = true ->
  summary (items_of s) = mkSummary 8 6 2 (Some "75.0") /\
  exists acts0 s0, run client CONCURRENCY acts0 (init SAMPLE_DATA) = Some s0 /\ final s0 = true.
Proof.
  intros Hcls Hfail Hrun Hfin.
  assert (HI : Inv client CONCURRENCY SAMPLE_DATA s)
    by (apply reachable_Inv; exists acts; exact Hrun).
  split.
  - rewrite (final_items _ _ _ _ HI Hfin).
    destruct (batch_result_counts client SAMPLE_DATA Hcls) as [Hf Hc].
    pose proof (filter_length_negb (fun k => fails_permanently (client k 0)) (seq 0 8)) as Hsum.
    change (length SAMPLE_DATA) with 8 in Hf, Hc.
    rewrite Hfail in Hf. rewrite Hfail, length_seq in Hsum.
    assert (Hc6 : count_status "completed" (batch_result client SAMPLE_DATA) = 6) by lia.
    unfold summary. fold (count_status "completed" (batch_result client SAMPLE_DATA)).
    fold (count_status "failed" (batch_result client SAMPLE_DATA)).
    rewrite Hc6, Hf, batch_result_length. reflexivity.
  - apply (run_completes client CONCURRENCY SAMPLE_DATA);
      [unfold CONCURRENCY; lia | apply Inv_init].
Qed.

(** C9, witness: rows 2 and 5 fail, processed one after the other. *)
Lemma C9_witness :
  exists s,
    run sample_client CONCURRENCY (one_by_one 8 8) (init SAMPLE_DATA) = Some s /\
    final s = true /\
    summary (items_of s) = mkSummary 8 6 2 (Some "75.0") /\
    exists acts0 s0,
      run sample_client CONCURRENCY acts0 (init SAMPLE_DATA) = Some s0 /\ final s0 = true.
Proof.
  eexists. split; [vm_compute; reflexivity |]. split; [vm_compute; reflexivity |].
  apply (C9_sample_run_reports_six_of_eight sample_client (one_by_one 8 8)).
  - intros k Hk.
    do 8 (destruct k as [| k]; [reflexivity |]). lia.
  - reflexivity.
  - vm_compute. reflexivity.
  - vm_compute. reflexivity.
Defined.

(** C10. The success rate divides by the number of items without a guard:
    it has a value exactly when there is at least one item, and for an empty
    input the division raises (no rate is printed). *)
Theorem C10_success_rate_needs_a_nonempty_batch
    {Dict : Type} (l : list (BatchItem Dict)) (completed total : nat) :
  (success_rate completed total = None <-> total = 0) /\
  (s_rate (summary l) = None <-> l = []) /\
  (is_Some (s_rate (summary l)) <-> 1 <= length l).
Proof.
  assert (H : forall c t, success_rate c t = None <-> t = 0).
  { intros c t. unfold success_rate. destruct (Nat.eqb_spec t 0) as [-> | Hne].
    - tauto.
    - split; [discriminate | contradiction]. }
  split; [apply H |].
  unfold summary. cbn [s_rate]. split.
  - rewrite fmap_None, H. apply length_zero_iff_nil.
  - rewrite fmap_is_Some, <- not_eq_None_Some, H. lia.
Qed.


(** * Further properties of the code *)

(** ** [process_item]: how a call ends *)

Section ProcessItemEnds.
Context {Dict : Type}.
Implicit Types (it : BatchItem Dict) (script : Script Dict).

Lemma Ended_same_fields it it' a out :
  error it' = error it -> result it' = result it ->
  Ended it' a out -> Ended it a out.
Proof.
  intros He Hr H. inversion H; subst.
  - apply ended_completed; congruence.
  - apply ended_not_completed; congruence.
  - eapply ended_raised; eauto; congruence.
  - apply ended_rate_limited; congruence.
Qed.

(** Every call is a number [m] of rate-limited attempts, each followed by a
    retry and its sleep, and then one last attempt. *)
Lemma process_item_cases script it : forall n,
  exists m,
    (forall j, j < m -> is_transient (script (n + j)) = true) /\
    retries (process_item script it n).1 = retries it + m /\
    (m = 0 \/ retries it + m <= MAX_RETRIES) /\
    (process_item script it n).2 = map backoff (seq (retries it + 1) m) /\
    Ended it (script (n + m)) (process_item script it n).1.
Proof.
  induction it as [it IH] using retry_ind. intros n.
  assert (Hretry : forall it1,
    try_block (script n) it = RaisedRateLimit it1 ->
    is_transient (script n) = true ->
    retries it1 = retries it -> error it1 = error it -> result it1 = result it ->
    exists m,
      (forall j, j < m -> is_transient (script (n + j)) = true) /\
      retries (on_rate_limit script it1 n).1 = retries it + m /\
      (m = 0 \/ retries it + m <= MAX_RETRIES) /\
      (on_rate_limit script it1 n).2 = map backoff (seq (retries it + 1) m) /\
      Ended it (script (n + m)) (on_rate_limit script it1 n).1).
  { intros it1 Hexit Htr Hr He Hres. unfold on_rate_limit.
    destruct (lt_dec (retries it1) MAX_RETRIES) as [Hlt | Hge].
    - destruct (IH (set_retries (retries it1 + 1) it1)) with (n := n + 1)
        as (m & Hall & Hret & Hm & Hsl & Hend); [simpl; lia |].
      cbn [retries set_retries] in Hret, Hsl, Hm. exists (S m).
      rewrite fst_let_pair, snd_let_pair.
      split; [| split; [| split; [| split]]].
      + intros [| j] Hj.
        * replace (n + 0) with n by lia. exact Htr.
        * replace (n + S j) with (n + 1 + j) by lia. apply Hall. lia.
      + lia.
      + right. destruct Hm; lia.
      + rewrite Hsl. simpl. rewrite Hr.
        replace (retries it + 1 + 1) with (S (retries it + 1)) by lia. reflexivity.
      + replace (n + S m) with (n + 1 + m) by lia.
        eapply Ended_same_fields; [| | exact Hend]; simpl; congruence.
    - exists 0. replace (n + 0) with n by lia. simpl.
      split; [intros j Hj; lia |].
      split; [lia |]. split; [left; reflexivity |]. split; [reflexivity |].
      apply ended_rate_limited;
        [exact Htr
        | change (retries (rate_limit_exhausted it1)) with (retries it1); lia
        | reflexivity | reflexivity | exact Hres ]. }
  rewrite process_item_eq.
  destruct (script n) as [| e | eid [| e | r]] eqn:Hn; simpl.
  - apply Hretry; auto; rewrite Hn; reflexivity.
  - exists 0. replace (n + 0) with n by lia. rewrite Hn. simpl.
    split; [intros j Hj; lia |]. split; [lia |]. split; [left; reflexivity |].
    split; [reflexivity |]. eapply ended_raised; reflexivity.
  - apply Hretry; auto; rewrite Hn; reflexivity.
  - exists 0. replace (n + 0) with n by lia. rewrite Hn. simpl.
    split; [intros j Hj; lia |]. split; [lia |]. split; [left; reflexivity |].
    split; [reflexivity |]. eapply ended_raised; reflexivity.
  - exists 0. replace (n + 0) with n by lia. rewrite Hn. unfold finish_wait.
    destruct (String.eqb (r_status r) "completed") eqn:Hst; simpl.
    + apply String.eqb_eq in Hst.
      split; [intros j Hj; lia |]. split; [lia |]. split; [left; reflexivity |].
      split; [reflexivity |]. apply ended_completed; auto.
    + apply String.eqb_neq in Hst.
      split; [intros j Hj; lia |]. split; [lia |]. split; [left; reflexivity |].
      split; [reflexivity |]. apply ended_not_completed; auto.
Qed.

End ProcessItemEnds.

(** X1. An item is marked "completed" only when an execution really
    completed: after some rate-limited attempts, each of them retried, an
    attempt returned the status "completed"; the item carries the outputs and
    the execution id of that attempt, one retry per rate-limited attempt, and
    its error field is untouched. *)
Theorem X1_completed_only_after_a_completed_execution
    {Dict : Type} (script : Script Dict) (it : BatchItem Dict) (n : nat) :
  status (process_item script it n).1 = "completed" ->
  exists m eid r,
    (forall j, j < m -> is_transient (script (n + j)) = true) /\
    script (n + m) = ExecReturn eid (WaitReturn r) /\
    r_status r = "completed" /\
    result (process_item script it n).1 = r_outputs r /\
    execution_id (process_item script it n).1 = Some eid /\
    retries (process_item script it n).1 = retries it + m /\
    error (process_item script it n).1 = error it.
Proof.
  intros Hst.
  destruct (process_item_cases script it n) as (m & Hall & Hret & _ & _ & Hend).
  inversion Hend; subst; try congruence.
  exists m, eid, r. repeat split; auto.
Qed.

(** X1, witness: row 0 of the two-row sample completes at its second attempt. *)
Lemma X1_witness :
  exists m eid r,
    (forall j, j < m -> is_transient (pair_client 0 (0 + j)) = true) /\
    pair_client 0 (0 + m) = ExecReturn eid (WaitReturn r) /\
    r_status r = "completed" /\
    result (process_item (pair_client 0) (new_item 0 [("name", "a")]) 0).1 = r_outputs r /\
    execution_id (process_item (pair_client 0) (new_item 0 [("name", "a")]) 0).1 = Some eid /\
    retries (process_item (pair_client 0) (new_item 0 [("name", "a")]) 0).1
      = retries (new_item 0 [("name", "a")]) + m /\
    error (process_item (pair_client 0) (new_item 0 [("name", "a")]) 0).1
      = error (new_item 0 [("name", "a")]).
Proof.
  apply (X1_completed_only_after_a_completed_execution
           (pair_client 0) (new_item 0 [("name", "a")]) 0).
  reflexivity.
Defined.


(** X3. The sleeps of a call are the backoff delays of its retries, in
    order: an item that enters with [r0] retries and leaves with [r] has slept
    [backoff (r0+1)], ..., [backoff r]; the retry counter never goes down, it
    only moves while it is below [MAX_RETRIES], and no call sleeps more than
    [MAX_RETRIES] times. *)
Theorem X3_sleeps_follow_the_retry_counter
    {Dict : Type} (script : Script Dict) (it : BatchItem Dict) (n : nat) :
  let out := process_item script it n in
  out.2 = map backoff (seq (retries it + 1) (retries out.1 - retries it)) /\
  retries it <= retries out.1 /\
  (retries out.1 = retries it \/ retries out.1 <= MAX_RETRIES) /\
  length out.2 <= MAX_RETRIES.
Proof.
  cbv zeta.
  destruct (process_item_cases script it n) as (m & _ & Hret & Hm & Hsl & _).
  rewrite Hsl, Hret, length_map, length_seq.
  replace (retries it + m - retries it) with m by lia.
  repeat split; try lia; destruct Hm; lia.
Qed.

(** X4. A call uses the client at most [MAX_RETRIES - retries + 1] times:
    what it returns and how long it sleeps are decided by that many attempts,
    and nothing the client would do afterwards matters. *)
Theorem X4_at_most_max_retries_plus_one_attempts
    {Dict : Type} (script script' : Script Dict) (it : BatchItem Dict) (n : nat) :
  (forall j, j <= MAX_RETRIES - retries it -> script (n + j) = script' (n + j)) ->
  process_item script it n = process_item script' it n.
Proof.
  revert n. induction it as [it IH] using retry_ind. intros n Hsame.
  rewrite (process_item_eq script), (process_item_eq script').
  assert (H0 : script n = script' n).
  { rewrite <- (Nat.add_0_r n). apply Hsame. lia. }
  rewrite <- H0.
  destruct (try_block (script n) it) as [it1 | it1 | e it1] eqn:Hexit; try reflexivity.
  apply try_block_rate_limit_retries in Hexit.
  unfold on_rate_limit. destruct (lt_dec _ _); [| reflexivity].
  rewrite (IH (set_retries (retries it1 + 1) it1)) with (n := n + 1); [reflexivity | |].
  - simpl. lia.
  - intros j Hj. simpl in Hj. replace (n + 1 + j) with (n + (j + 1)) by lia.
    apply Hsame. lia.
Qed.

(** X4, witness: a client that would complete at its fifth attempt is never
    asked for it. *)
Lemma X4_witness :
  process_item late_client (new_item 0 (person "a" "b" "c")) 0
  = process_item (fun _ => ExecRateLimit) (new_item 0 (person "a" "b" "c")) 0.
Proof.
  apply (X4_at_most_max_retries_plus_one_attempts
           late_client (fun _ => ExecRateLimit) (new_item 0 (person "a" "b" "c")) 0).
  intros j Hj. do 4 (destruct j as [| j]; [reflexivity |]).
  unfold MAX_RETRIES in Hj. simpl in Hj. lia.
Defined.



(** ** The run: what every reachable state satisfies *)

Section WorkerMore.
Context {Dict : Type}.
Implicit Types (it : BatchItem Dict) (script : Script Dict) (t : Thread Dict).

Lemma status_rank_unfinished st : unfinished st -> status_rank st <= 1.
Proof. intros [-> | ->]; cbv; lia. Qed.

Lemma status_rank_terminal st : terminal st -> status_rank st = 2.
Proof. intros [-> | ->]; reflexivity. Qed.

Lemma status_rank_pending st : status_rank st = 0 <-> st = "pending".
Proof.
  unfold status_rank. destruct (String.eqb_spec st "pending") as [-> | Hne].
  - tauto.
  - destruct (String.eqb st "running"); split; intros H; try discriminate H; contradiction.
Qed.

Lemma status_rank_le_2 st : status_rank st <= 2.
Proof.
  unfold status_rank. destruct (String.eqb st "pending"); [lia |].
  destruct (String.eqb st "running"); lia.
Qed.

(** No statement of the worker moves the status of its item backwards. *)
Lemma thread_step_rank script t it t' it' :
  thread_step script t it = Some (t', it') ->
  pc_status (t_pc t) (status it) ->
  status_rank (status it) <= status_rank (status it').
Proof.
  destruct t as [pc n]. unfold thread_step. simpl.
  destruct pc; simpl; intros H Hs.
  all: repeat match type of H with
         | context [match ?x with _ => _ end] => destruct x
         end.
  all: inversion H; subst; clear H; simpl.
  all: try lia.
  all: try (apply status_rank_unfinished in Hs; exact Hs).
  all: try (change (status_rank "completed") with 2; apply status_rank_le_2).
  all: try (change (status_rank "failed") with 2; apply status_rank_le_2).
Qed.

Lemma resume_index_data script t it :
  index (resume script t it) = index it /\ data (resume script t it) = data it.
Proof.
  assert (Hrl : forall it0 n, index (on_rate_limit script it0 n).1 = index it0 /\
                              data (on_rate_limit script it0 n).1 = data it0).
  { intros it0 n. unfold on_rate_limit. destruct (lt_dec _ _); [| auto].
    rewrite fst_let_pair.
    destruct (process_item_index_data script (set_retries (retries it0 + 1) it0) (n + 1)).
    auto. }
  assert (Hfw : forall r it0, index (finish_wait r it0) = index it0 /\
                              data (finish_wait r it0) = data it0).
  { intros r it0. unfold finish_wait. destruct (String.eqb _ _); auto. }
  assert (Haw : forall w it0 n, index (after_wait script w it0 n) = index it0 /\
                                data (after_wait script w it0 n) = data it0).
  { intros [| e | r] it0 n; simpl; auto. }
  destruct t as [pc n]. unfold resume. simpl.
  destruct pc; simpl; auto; try apply process_item_index_data.
  - destruct (Haw w (started eid it) n). auto.
  - destruct (Haw w (set_status "running" it) n). auto.
  - destruct (process_item_index_data script (set_retries (retries it + 1) it) (n + 1)).
    auto.
Qed.

End WorkerMore.

Section PoolMore.
Context {Dict : Type}.
Variable client : nat -> Script Dict.
Variable concurrency : nat.
Variable sample : list Dict.
Implicit Types (it : BatchItem Dict) (s : State Dict) (f : Future Dict).

Local Abbreviation Inv := (Inv client concurrency sample).
Local Abbreviation inv_heap := (inv_heap client concurrency sample).
Local Abbreviation inv_items := (inv_items client concurrency sample).
Local Abbreviation inv_futures := (inv_futures client concurrency sample).
Local Abbreviation inv_cell := (inv_cell client concurrency sample).

Lemma cell_ok_status k d fo it :
  cell_ok client k d fo it -> terminal (status it) \/ unfinished (status it).
Proof.
  destruct fo as [f |]; simpl.
  - intros [_ H]. destruct (f_state f) as [| t |].
    + destruct H as [-> _]. right. left. reflexivity.
    + destruct H as (_ & Hs & _). destruct (t_pc t); simpl in Hs; auto;
        left; unfold terminal; auto.
    + subst it. left. apply outcome_terminal.
  - intros ->. right. left. reflexivity.
Qed.

Lemma cell_ok_index_data k d fo it :
  cell_ok client k d fo it -> index it = k /\ data it = d.
Proof.
  destruct fo as [f |]; simpl.
  - intros [_ H]. destruct (f_state f) as [| t |].
    + destruct H as [-> _]. auto.
    + destruct H as (Hres & _ & _).
      destruct (resume_index_data (client k) t it) as [Hi Hd].
      rewrite Hres, outcome_index in Hi. rewrite Hres, outcome_data in Hd. auto.
    + subst it. split; [apply outcome_index | apply outcome_data].
  - intros ->. auto.
Qed.

Lemma Inv_heap_lookup s k it :
  Inv s -> heap s !! k = Some it ->
  exists d, sample !! k = Some d /\ cell_ok client k d (futures s !! k) it.
Proof.
  intros HI Hk.
  destruct (lookup_lt_is_Some_2 sample k) as [d Hd].
  { apply lookup_lt_Some in Hk. rewrite (inv_heap _ HI) in Hk. exact Hk. }
  destruct (inv_cell _ HI _ _ Hd) as (it0 & Hit0 & Hok).
  exists d. split; [exact Hd |]. congruence.
Qed.

Lemma Inv_index_data s :
  Inv s -> index <$> heap s = seq 0 (length sample) /\ data <$> heap s = sample.
Proof.
  intros HI. split; apply list_eq; intros k; rewrite list_lookup_fmap.
  - destruct (heap s !! k) as [it |] eqn:Hk; simpl.
    + destruct (Inv_heap_lookup _ _ _ HI Hk) as (d & Hd & Hok).
      destruct (cell_ok_index_data _ _ _ _ Hok) as [-> _].
      symmetry. apply lookup_seq. split; [reflexivity | eapply lookup_lt_Some; exact Hd].
    + symmetry. apply lookup_seq_ge. apply lookup_ge_None in Hk.
      rewrite (inv_heap _ HI) in Hk. exact Hk.
  - destruct (heap s !! k) as [it |] eqn:Hk; simpl.
    + destruct (Inv_heap_lookup _ _ _ HI Hk) as (d & Hd & Hok).
      destruct (cell_ok_index_data _ _ _ _ Hok) as [_ ->]. symmetry. exact Hd.
    + symmetry. apply lookup_ge_None. apply lookup_ge_None in Hk.
      rewrite (inv_heap _ HI) in Hk. exact Hk.
Qed.

Lemma count_status_partition (l : list (BatchItem Dict)) :
  Forall (fun it => terminal (status it) \/ unfinished (status it)) l ->
  count_status "completed" l + count_status "failed" l
  + count_status "running" l + count_status "pending" l = length l.
Proof.
  unfold count_status. induction 1 as [| it l Hit _ IH]; simpl; [reflexivity |].
  destruct Hit as [[-> | ->] | [-> | ->]]; simpl; lia.
Qed.

Lemma step_rank a s s' k it :
  Inv s -> step client concurrency a s = Some s' ->
  heap s !! k = Some it ->
  exists it', heap s' !! k = Some it' /\
              status_rank (status it) <= status_rank (status it').
Proof.
  intros HI Hstep Hk.
  destruct (step_cell _ _ _ _ _ _ HI Hstep)
    as (_ & j & d & itj & itj' & Hd & Hit & Hit' & Hcs & Hframe).
  destruct (decide (k = j)) as [-> | Hne].
  - exists itj'. split; [exact Hit' |].
    assert (itj = it) by congruence. subst itj.
    destruct (inv_cell _ HI _ _ Hd) as (it0 & Hit0 & Hok).
    assert (it0 = it) by congruence. subst it0.
    inversion Hcs; subst; try lia.
    match goal with E : _ = futures s !! j |- _ => rewrite <- E in Hok end.
    simpl in Hok. destruct Hok as (_ & _ & Hst & _).
    eapply thread_step_rank; eassumption.
  - exists it. destruct (Hframe k Hne) as [_ ->]. split; [exact Hk | lia].
Qed.

End PoolMore.

(** X6. During a run the status of an item only moves forward, from
    "pending" to "running" to "completed" or "failed": no step moves any item
    backwards, so in particular the number of pending items never grows. *)
Theorem X6_status_only_moves_forward
    {Dict : Type} (client : nat -> Script Dict) (sample : list Dict) (C : nat)
    (acts : list Action) (a : Action) (s s' : State Dict) :
  run client C acts (init sample) = Some s ->
  step client C a s = Some s' ->
  (forall k it, items_of s !! k = Some it ->
     exists it', items_of s' !! k = Some it' /\
                 status_rank (status it) <= status_rank (status it')) /\
  p_pending (update_progress (items_of s')) <= p_pending (update_progress (items_of s)).
Proof.
  intros Hrun Hstep.
  assert (HI : Inv client C sample s) by (apply reachable_Inv; exists acts; exact Hrun).
  assert (HI' : Inv client C sample s') by (eapply step_cell; eassumption).
  rewrite (items_of_heap _ _ _ _ HI), (items_of_heap _ _ _ _ HI').
  split.
  - intros k it Hk. eapply (step_rank client C sample a s s'); eassumption.
  - simpl. unfold count_status. apply filter_length_le.
    intros k it' Hk' Hp. apply String.eqb_eq in Hp.
    destruct (lookup_lt_is_Some_2 (heap s) k) as [it Hk].
    { apply lookup_lt_Some in Hk'.
      rewrite (inv_heap _ _ _ _ HI') in Hk'. rewrite (inv_heap _ _ _ _ HI). exact Hk'. }
    destruct (step_rank client C sample a s s' k it HI Hstep Hk) as (it2 & Hk2 & Hle).
    assert (it2 = it') by congruence. subst it2.
    exists it. split; [exact Hk |]. apply String.eqb_eq.
    apply status_rank_pending. rewrite Hp in Hle.
    change (status_rank "pending") with 0 in Hle. lia.
Qed.

(** X6, witness: the step in which the worker of row 0 sets its item to
    "running". *)
Lemma X6_witness :
  exists s s',
    run pair_client 2 ([Submit; Submit; Dispatch] ++ repeat (Work 0) 2) (init pair_sample)
      = Some s /\
    step pair_client 2 (Work 0) s = Some s' /\
    (forall k it, items_of s !! k = Some it ->
       exists it', items_of s' !! k = Some it' /\
                   status_rank (status it) <= status_rank (status it')) /\
    p_pending (update_progress (items_of s')) <= p_pending (update_progress (items_of s)).
Proof.
  eexists. eexists.
  split; [vm_compute; reflexivity |]. split; [vm_compute; reflexivity |].
  apply (X6_status_only_moves_forward pair_client pair_sample 2
           ([Submit; Submit; Dispatch] ++ repeat (Work 0) 2) (Work 0));
    vm_compute; reflexivity.
Defined.

(** X7. At every point of a run the four numbers of the progress line add
    up: completed + failed + running + pending is the number of items, so no
    item is ever in a status that [update_progress] does not count. *)
Theorem X7_progress_counts_every_item
    {Dict : Type} (client : nat -> Script Dict) (sample : list Dict) (C : nat)
    (acts : list Action) (s : State Dict) :
  run client C acts (init sample) = Some s ->
  let p := update_progress (items_of s) in
  p_completed p + p_failed p + p_running p + p_pending p = length sample /\
  length (items_of s) = length sample.
Proof.
  intros Hrun.
  assert (HI : Inv client C sample s) by (apply reachable_Inv; exists acts; exact Hrun).
  cbv zeta. rewrite (items_of_heap _ _ _ _ HI). simpl.
  rewrite count_status_partition; [split; apply (inv_heap _ _ _ _ HI) |].
  apply Forall_lookup. intros k it Hk.
  destruct (Inv_heap_lookup _ _ _ _ _ _ HI Hk) as (d & _ & Hok).
  eapply cell_ok_status. exact Hok.
Qed.

(** X7, witness: the two-row run with row 0 asleep and row 1 just started. *)
Lemma X7_witness :
  exists s,
    run pair_client 2 pair_asleep (init pair_sample) = Some s /\
    let p := update_progress (items_of s) in
    p_completed p + p_failed p + p_running p + p_pending p = length pair_sample /\
    length (items_of s) = length pair_sample.
Proof.
  eexists. split; [vm_compute; reflexivity |].
  apply (X7_progress_counts_every_item pair_client pair_sample 2 pair_asleep).
  vm_compute. reflexivity.
Defined.

(** X8. The list [items] is never reordered and the key fields are never
    written: at every point of a run the item at position [k] has index [k]
    and carries row [k] of the input. *)
Theorem X8_index_and_payload_are_stable
    {Dict : Type} (client : nat -> Script Dict) (sample : list Dict) (C : nat)
    (acts : list Action) (s : State Dict) :
  run client C acts (init sample) = Some s ->
  index <$> items_of s = seq 0 (length sample) /\
  data <$> items_of s = sample /\
  items s = seq 0 (length sample).
Proof.
  intros Hrun.
  assert (HI : Inv client C sample s) by (apply reachable_Inv; exists acts; exact Hrun).
  rewrite (items_of_heap _ _ _ _ HI).
  destruct (Inv_index_data _ _ _ _ HI) as [Hi Hd].
  split; [exact Hi |]. split; [exact Hd | apply (inv_items _ _ _ _ HI)].
Qed.

(** X8, witness: midway through the two-row run. *)
Lemma X8_witness :
  exists s,
    run pair_client 2 pair_midway (init pair_sample) = Some s /\
    index <$> items_of s = seq 0 (length pair_sample) /\
    data <$> items_of s = pair_sample /\
    items s = seq 0 (length pair_sample).
Proof.
  eexists. split; [vm_compute; reflexivity |].
  apply (X8_index_and_payload_are_stable pair_client pair_sample 2 pair_midway).
  vm_compute. reflexivity.
Defined.

(** ** The run: what each kind of step does *)

Section StepShape.
Context {Dict : Type}.
Variable client : nat -> Script Dict.
Variable concurrency : nat.
Implicit Types (it : BatchItem Dict) (s : State Dict) (f : Future Dict).

(** The futures after a step, by action. *)
Lemma step_futures a s s' :
  step client concurrency a s = Some s' ->
  match a with
  | Submit =>
      exists r, futures s' = (futures s ++ [mkFuture r FPending false])%list
  | Dispatch =>
      exists c fc,
        futures s !! c = Some fc /\ is_pending fc = true /\
        (forall i fi, i < c -> futures s !! i = Some fi -> is_pending fi = false) /\
        futures s' = <[c := mkFuture (f_item fc) (FRunning (mkThread L64 0)) false]> (futures s)
  | Work k =>
      exists f t st',
        futures s !! k = Some f /\ f_state f = FRunning t /\
        (st' = FFinished \/ exists t', st' = FRunning t') /\
        futures s' = <[k := mkFuture (f_item f) st' (f_yielded f)]> (futures s)
  | Collect k =>
      exists f,
        futures s !! k = Some f /\ f_state f = FFinished /\ f_yielded f = false /\
        length (futures s) = length (items s) /\
        futures s' = <[k := mkFuture (f_item f) FFinished true]> (futures s)
  end.
Proof.
  destruct a as [| | k | k]; simpl; intros Hstep.
  - destruct (items s !! _) as [r |]; simpl in Hstep; inversion Hstep; subst.
    exists r. reflexivity.
  - destruct (busy s <? concurrency); [| discriminate].
    destruct (list_find _ (futures s)) as [[c fc] |] eqn:Hfind; simpl in Hstep;
      inversion Hstep; subst; clear Hstep.
    apply list_find_Some in Hfind as (Hc & Hp & Hmin).
    exists c, fc. split; [exact Hc |]. split.
    + destruct (is_pending fc); [reflexivity | contradiction].
    + split; [| reflexivity]. intros i fi Hi Hfi.
      specialize (Hmin i fi Hfi Hi). destruct (is_pending fi); [| reflexivity].
      exfalso. apply Hmin. exact I.
  - destruct (futures s !! k) as [f |] eqn:Hk; simpl in Hstep; [| discriminate].
    destruct (f_state f) as [| t |] eqn:Hfs; try discriminate.
    destruct (heap s !! f_item f); simpl in Hstep; [| discriminate].
    destruct (thread_step _ _ _) as [[t' it'] |]; inversion Hstep; subst; simpl.
    + exists f, t, (FRunning t'). eauto 10.
    + exists f, t, FFinished. eauto 10.
  - destruct (Nat.eqb_spec (length (futures s)) (length (items s))) as [Hlen |];
      [| discriminate].
    destruct (futures s !! k) as [f |] eqn:Hk; simpl in Hstep; [| discriminate].
    destruct (is_finished f && negb (f_yielded f)) eqn:Hfin; [| discriminate].
    apply andb_prop in Hfin as [Hfin Hny]. apply negb_true_iff in Hny.
    unfold is_finished in Hfin. destruct (f_state f) eqn:Hfs; try discriminate Hfin.
    unfold collect in Hstep.
    destruct (heap s !! f_item f); simpl in Hstep; [| discriminate].
    exists f. repeat split; auto.
    destruct (_ <? _); simpl in Hstep; inversion Hstep; subst; reflexivity.
Qed.

Lemma fifo_step a s s' :
  step client concurrency a s = Some s' -> fifo s -> fifo s'.
Proof.
  intros Hstep Hfifo j k fj fk Hjk Hj Hk Hp.
  apply step_futures in Hstep.
  destruct a as [| | c | c].
  - destruct Hstep as [r Hs']. rewrite Hs' in Hj, Hk.
    apply lookup_snoc_Some in Hk as [[Hlt Hk] | [_ <-]]; [| reflexivity].
    apply lookup_snoc_Some in Hj as [[_ Hj] | [Hj _]]; [| lia].
    apply (Hfifo j k fj fk); assumption.
  - destruct Hstep as (c & fc & Hc & Hpc & Hmin & Hs'). rewrite Hs' in Hj, Hk.
    pose proof (lookup_lt_Some _ _ _ Hc) as Hclt.
    destruct (decide (j = c)) as [-> | Hjc].
    + rewrite list_lookup_insert_eq in Hj by exact Hclt. inversion Hj; subst.
      discriminate Hp.
    + rewrite list_lookup_insert_ne in Hj by congruence.
      destruct (decide (k = c)) as [-> | Hkc].
      * rewrite (Hmin j fj Hjk Hj) in Hp. discriminate Hp.
      * rewrite list_lookup_insert_ne in Hk by congruence.
        apply (Hfifo j k fj fk); assumption.
  - destruct Hstep as (f & t & st' & Hc & Hfs & Hst & Hs'). rewrite Hs' in Hj, Hk.
    pose proof (lookup_lt_Some _ _ _ Hc) as Hclt.
    destruct (decide (j = c)) as [-> | Hjc].
    + rewrite list_lookup_insert_eq in Hj by exact Hclt. inversion Hj; subst.
      unfold is_pending in Hp. simpl in Hp.
      destruct Hst as [-> | [t' ->]]; discriminate Hp.
    + rewrite list_lookup_insert_ne in Hj by congruence.
      destruct (decide (k = c)) as [-> | Hkc].
      * pose proof (Hfifo _ _ _ _ Hjk Hj Hc Hp) as Hpf.
        unfold is_pending in Hpf. rewrite Hfs in Hpf. discriminate Hpf.
      * rewrite list_lookup_insert_ne in Hk by congruence.
        apply (Hfifo j k fj fk); assumption.
  - destruct Hstep as (f & Hc & Hfs & _ & _ & Hs'). rewrite Hs' in Hj, Hk.
    pose proof (lookup_lt_Some _ _ _ Hc) as Hclt.
    destruct (decide (j = c)) as [-> | Hjc].
    + rewrite list_lookup_insert_eq in Hj by exact Hclt. inversion Hj; subst.
      discriminate Hp.
    + rewrite list_lookup_insert_ne in Hj by congruence.
      destruct (decide (k = c)) as [-> | Hkc].
      * pose proof (Hfifo _ _ _ _ Hjk Hj Hc Hp) as Hpf.
        unfold is_pending in Hpf. rewrite Hfs in Hpf. discriminate Hpf.
      * rewrite list_lookup_insert_ne in Hk by congruence.
        apply (Hfifo j k fj fk); assumption.
Qed.

Lemma fifo_run acts : forall s s',
  run client concurrency acts s = Some s' -> fifo s -> fifo s'.
Proof.
  induction acts as [| a acts IH]; simpl; intros s s' Hrun Hf.
  - inversion Hrun; subst. exact Hf.
  - destruct (step client concurrency a s) as [s1 |] eqn:Hs; simpl in Hrun; [| discriminate].
    eapply IH; [exact Hrun |]. eapply fifo_step; eassumption.
Qed.

End StepShape.

Section StepCounts.
Context {Dict : Type}.
Variable client : nat -> Script Dict.
Variable concurrency : nat.
Variable sample : list Dict.
Implicit Types (it : BatchItem Dict) (s : State Dict) (f : Future Dict).

Local Abbreviation Inv := (Inv client concurrency sample).

Lemma Inv_future s k f :
  Inv s -> futures s !! k = Some f ->
  f_item f = k /\ (f_yielded f = true -> f_state f = FFinished).
Proof.
  intros HI Hk.
  destruct (lookup_lt_is_Some_2 sample k) as [d Hd].
  { apply lookup_lt_Some in Hk. pose proof (inv_futures _ _ _ _ HI). lia. }
  destruct (inv_cell _ _ _ _ HI _ _ Hd) as (it & _ & Hok).
  rewrite Hk in Hok. simpl in Hok. destruct Hok as [Hfi Hok].
  split; [exact Hfi |]. intros Hy.
  destruct (f_state f); [| | reflexivity].
  - destruct Hok as [_ Hn]. congruence.
  - destruct Hok as (_ & _ & Hn). congruence.
Qed.

(** Each step is counted once, by its kind. *)
Lemma step_counts a s s' :
  Inv s -> step client concurrency a s = Some s' ->
  length (futures s') = length (futures s) + Nat.b2n (is_submit a) /\
  taken s' = taken s + Nat.b2n (is_dispatch a) /\
  yielded s' = yielded s + Nat.b2n (is_collect a).
Proof.
  intros HI Hstep. apply step_futures in Hstep. unfold taken, yielded.
  destruct a as [| | k | k]; simpl.
  - destruct Hstep as [r ->].
    rewrite length_app, !filter_length_snoc. simpl. lia.
  - destruct Hstep as (c & fc & Hc & Hp & _ & ->).
    rewrite length_insert.
    pose proof (filter_length_insert (fun f => negb (is_pending f)) (futures s) c fc
                  (mkFuture (f_item fc) (FRunning (mkThread (@L64 Dict) 0)) false) Hc) as H1.
    pose proof (filter_length_insert (fun f => f_yielded f) (futures s) c fc
                  (mkFuture (f_item fc) (FRunning (mkThread (@L64 Dict) 0)) false) Hc) as H2.
    cbv beta in H1, H2. rewrite Hp in H1.
    change (is_pending (mkFuture _ (FRunning _) _)) with false in H1.
    change (f_yielded (mkFuture (f_item fc) (FRunning (mkThread (@L64 Dict) 0)) false))
      with false in H2.
    assert (Hy : f_yielded fc = false).
    { destruct (Inv_future _ _ _ HI Hc) as [_ Hy]. destruct (f_yielded fc); [| reflexivity].
      specialize (Hy eq_refl). unfold is_pending in Hp. rewrite Hy in Hp. discriminate Hp. }
    rewrite Hy in H2. cbv iota in H1, H2. simpl in H1. lia.
  - destruct Hstep as (f & t & st' & Hk & Hfs & Hst & ->).
    rewrite length_insert.
    pose proof (filter_length_insert (fun f => negb (is_pending f)) (futures s) k f
                  (mkFuture (f_item f) st' (f_yielded f)) Hk) as H1.
    pose proof (filter_length_insert (fun f => f_yielded f) (futures s) k f
                  (mkFuture (f_item f) st' (f_yielded f)) Hk) as H2.
    cbv beta in H1, H2.
    assert (Hp : is_pending f = false) by (unfold is_pending; rewrite Hfs; reflexivity).
    assert (Hp' : is_pending (mkFuture (f_item f) st' (f_yielded f)) = false)
      by (destruct Hst as [-> | [t' ->]]; reflexivity).
    rewrite Hp, Hp' in H1.
    change (f_yielded (mkFuture (f_item f) st' (f_yielded f))) with (f_yielded f) in H2.
    lia.
  - destruct Hstep as (f & Hk & Hfs & Hy & _ & ->).
    rewrite length_insert.
    pose proof (filter_length_insert (fun f => negb (is_pending f)) (futures s) k f
                  (mkFuture (f_item f) (@FFinished Dict) true) Hk) as H1.
    pose proof (filter_length_insert (fun f => f_yielded f) (futures s) k f
                  (mkFuture (f_item f) (@FFinished Dict) true) Hk) as H2.
    cbv beta in H1, H2.
    assert (Hp : is_pending f = false) by (unfold is_pending; rewrite Hfs; reflexivity).
    rewrite Hp in H1. rewrite Hy in H2.
    change (is_pending (mkFuture (f_item f) (@FFinished Dict) true)) with false in H1.
    change (f_yielded (mkFuture (f_item f) (@FFinished Dict) true)) with true in H2.
    cbv iota in H1, H2. simpl in H1. lia.
Qed.

Lemma run_counts acts : forall s s',
  Inv s -> run client concurrency acts s = Some s' ->
  length (futures s') = length (futures s) + length (List.filter is_submit acts) /\
  taken s' = taken s + length (List.filter is_dispatch acts) /\
  yielded s' = yielded s + length (List.filter is_collect acts).
Proof.
  induction acts as [| a acts IH]; simpl; intros s s' HI Hrun.
  - inversion Hrun; subst. lia.
  - destruct (step client concurrency a s) as [s1 |] eqn:Hs; simpl in Hrun; [| discriminate].
    destruct (step_counts _ _ _ HI Hs) as (H1 & H2 & H3).
    assert (HI1 : Inv s1) by (eapply step_cell; eassumption).
    destruct (IH _ _ HI1 Hrun) as (H1' & H2' & H3').
    destruct a; simpl in *; lia.
Qed.

Lemma filter_length_all {A} (p : A -> bool) (l : list A) :
  (forall k x, l !! k = Some x -> p x = true) -> length (List.filter p l) = length l.
Proof.
  induction l as [| a l IH]; simpl; intros H; [reflexivity |].
  rewrite (H 0 a eq_refl). simpl. f_equal. apply IH. intros k x Hk. apply (H (S k)). exact Hk.
Qed.

Lemma final_counts s :
  Inv s -> final s = true ->
  length (futures s) = length sample /\ taken s = length sample /\
  yielded s = length sample.
Proof.
  intros HI Hfin. pose proof Hfin as Hfin0.
  unfold final in Hfin. apply andb_prop in Hfin as [Hlen Hall].
  apply Nat.eqb_eq in Hlen. rewrite (inv_items _ _ _ _ HI), length_seq in Hlen.
  split; [exact Hlen |]. unfold taken, yielded.
  rewrite !filter_length_all; [auto | |].
  - intros k f Hk. eapply forallb_lookup in Hall; [exact Hall | exact Hk].
  - intros k f Hk.
    pose proof (forallb_lookup _ _ _ _ Hall Hk) as Hy. simpl in Hy.
    destruct (Inv_future _ _ _ HI Hk) as [_ Hf].
    unfold is_pending. rewrite (Hf Hy). reflexivity.
Qed.

(** What a step may write: a worker its own item, the main thread none. *)
Lemma step_writes a s s' :
  Inv s -> step client concurrency a s = Some s' ->
  items s' = items s /\
  match a with
  | Work k => forall j, j <> k -> heap s' !! j = heap s !! j
  | _ => heap s' = heap s
  end.
Proof.
  intros HI Hstep.
  assert (HI' : Inv s') by (eapply step_cell; eassumption).
  split; [rewrite (inv_items _ _ _ _ HI), (inv_items _ _ _ _ HI'); reflexivity |].
  destruct a as [| | k | k]; simpl in Hstep.
  - destruct (items s !! _); simpl in Hstep; inversion Hstep; subst; reflexivity.
  - destruct (busy s <? concurrency); [| discriminate].
    destruct (list_find _ _) as [[c fc] |]; simpl in Hstep; inversion Hstep; subst;
      reflexivity.
  - destruct (futures s !! k) as [f |] eqn:Hk; simpl in Hstep; [| discriminate].
    destruct (Inv_future _ _ _ HI Hk) as [Hfi _].
    destruct (f_state f); try discriminate.
    destruct (heap s !! f_item f); simpl in Hstep; [| discriminate].
    destruct (thread_step _ _ _) as [[t' it'] |]; inversion Hstep; subst; simpl.
    + intros j Hj. apply list_lookup_insert_ne. congruence.
    + reflexivity.
  - destruct (_ =? _); [| discriminate].
    destruct (futures s !! k) as [f |] eqn:Hk; simpl in Hstep; [| discriminate].
    destruct (is_finished f && negb (f_yielded f)) eqn:Hfin; [| discriminate].
    apply andb_prop in Hfin as [Hfin _].
    destruct (Inv_future _ _ _ HI Hk) as [Hfi _].
    unfold collect in Hstep.
    destruct (heap s !! f_item f) as [res |] eqn:Hres; simpl in Hstep; [| discriminate].
    rewrite Hfi in Hres.
    destruct (Inv_heap_lookup _ _ _ _ _ _ HI Hres) as (d & Hd & Hok).
    destruct (cell_ok_index_data _ _ _ _ _ Hok) as [Hidx _].
    assert (Hin : (index res <? length (items s)) = true).
    { apply Nat.ltb_lt. rewrite Hidx, (inv_items _ _ _ _ HI), length_seq.
      eapply lookup_lt_Some. exact Hd. }
    rewrite Hin in Hstep. simpl in Hstep. inversion Hstep; subst. reflexivity.
Qed.

End StepCounts.

(** X9. During a run a worker writes only the item it was handed, and the
    main thread writes no item at all: a step of the worker of future [k]
    leaves every other item as it is, and submitting, handing out and
    collecting leave all items as they are (the assignment of line 156 puts
    the item back where it was, and lines 158-159 are never reached); the
    list [items] always holds the same objects. *)
Theorem X9_each_item_has_one_writer
    {Dict : Type} (client : nat -> Script Dict) (sample : list Dict) (C : nat)
    (acts : list Action) (a : Action) (s s' : State Dict) :
  run client C acts (init sample) = Some s ->
  step client C a s = Some s' ->
  items s' = items s /\
  match a with
  | Work k => forall j, j <> k -> items_of s' !! j = items_of s !! j
  | _ => items_of s' = items_of s
  end.
Proof.
  intros Hrun Hstep.
  assert (HI : Inv client C sample s) by (apply reachable_Inv; exists acts; exact Hrun).
  assert (HI' : Inv client C sample s') by (eapply step_cell; eassumption).
  rewrite (items_of_heap _ _ _ _ HI), (items_of_heap _ _ _ _ HI').
  exact (step_writes client C sample a s s' HI Hstep).
Qed.

(** X9, witness: a statement of the worker of row 0 while row 1 is in
    flight too. *)
Lemma X9_witness :
  exists s s',
    run pair_client 2 pair_asleep (init pair_sample) = Some s /\
    step pair_client 2 (Work 0) s = Some s' /\
    items s' = items s /\
    forall j, j <> 0 -> items_of s' !! j = items_of s !! j.
Proof.
  eexists. eexists.
  split; [vm_compute; reflexivity |]. split; [vm_compute; reflexivity |].
  apply (X9_each_item_has_one_writer pair_client pair_sample 2 pair_asleep (Work 0));
    vm_compute; reflexivity.
Defined.

(** X10. Items are started in input order: at every point of a run, if an
    item is still in the work queue then so is every later item that was
    submitted, so no item is handed to a worker before an earlier one. *)
Theorem X10_items_are_started_in_input_order
    {Dict : Type} (client : nat -> Script Dict) (sample : list Dict) (C : nat)
    (acts : list Action) (s : State Dict) :
  run client C acts (init sample) = Some s ->
  forall j k fj fk,
    j < k -> futures s !! j = Some fj -> futures s !! k = Some fk ->
    (is_pending fj = true -> is_pending fk = true) /\
    (is_running fk = true \/ is_finished fk = true -> is_pending fj = false).
Proof.
  intros Hrun j k fj fk Hjk Hj Hk.
  assert (Hf : fifo s).
  { eapply fifo_run; [exact Hrun |].
    intros j0 k0 fj0 fk0 _ H0. simpl in H0. rewrite lookup_nil in H0. discriminate H0. }
  split; [apply (Hf j k fj fk); assumption |].
  intros Hst. destruct (is_pending fj) eqn:Hp; [| reflexivity].
  pose proof (Hf j k fj fk Hjk Hj Hk Hp) as Hpk.
  unfold is_pending in Hpk. unfold is_running, is_finished in Hst.
  destruct (f_state fk); destruct Hst; discriminate.
Qed.

(** X10, witness: three rows and one worker, the first row in flight. *)
Lemma X10_witness :
  exists s,
    run sample_client 1 [Submit; Submit; Submit; Dispatch; Work 0]
        (init (take 3 SAMPLE_DATA)) = Some s /\
    forall j k fj fk,
      j < k -> futures s !! j = Some fj -> futures s !! k = Some fk ->
      (is_pending fj = true -> is_pending fk = true) /\
      (is_running fk = true \/ is_finished fk = true -> is_pending fj = false).
Proof.
  eexists. split; [vm_compute; reflexivity |].
  apply (X10_items_are_started_in_input_order sample_client (take 3 SAMPLE_DATA) 1
           [Submit; Submit; Submit; Dispatch; Work 0]).
  vm_compute. reflexivity.
Defined.

(** X11. In a run that comes to its end every item is submitted once,
    handed to a worker once and collected once: the schedule has exactly N
    submissions, N hand-outs and N collections; at any earlier point the
    numbers are those of the futures created, taken and yielded so far. *)
Theorem X11_each_item_is_processed_exactly_once
    {Dict : Type} (client : nat -> Script Dict) (sample : list Dict) (C : nat)
    (acts : list Action) (s : State Dict) :
  run client C acts (init sample) = Some s ->
  length (List.filter is_submit acts) = length (futures s) /\
  length (List.filter is_dispatch acts) = taken s /\
  length (List.filter is_collect acts) = yielded s /\
  (final s = true ->
   length (List.filter is_submit acts) = length sample /\
   length (List.filter is_dispatch acts) = length sample /\
   length (List.filter is_collect acts) = length sample).
Proof.
  intros Hrun.
  assert (HI : Inv client C sample s) by (apply reachable_Inv; exists acts; exact Hrun).
  destruct (run_counts client C sample acts _ _ (Inv_init client C sample) Hrun)
    as (H1 & H2 & H3).
  change (length (futures (init sample))) with 0 in H1.
  change (taken (init sample)) with 0 in H2.
  change (yielded (init sample)) with 0 in H3.
  split; [lia |]. split; [lia |]. split; [lia |].
  intros Hfin. destruct (final_counts client C sample s HI Hfin) as (F1 & F2 & F3). lia.
Qed.

(** X11, witness: the complete run of the two-row sample. *)
Lemma X11_witness :
  exists s,
    run pair_client 2 (pair_asleep ++ pair_rest) (init pair_sample) = Some s /\
    length (List.filter is_submit (pair_asleep ++ pair_rest)) = length (futures s) /\
    length (List.filter is_dispatch (pair_asleep ++ pair_rest)) = taken s /\
    length (List.filter is_collect (pair_asleep ++ pair_rest)) = yielded s /\
    (final s = true ->
     length (List.filter is_submit (pair_asleep ++ pair_rest)) = length pair_sample /\
     length (List.filter is_dispatch (pair_asleep ++ pair_rest)) = length pair_sample /\
     length (List.filter is_collect (pair_asleep ++ pair_rest)) = length pair_sample).
Proof.
  eexists. split; [vm_compute; reflexivity |].
  apply (X11_each_item_is_processed_exactly_once pair_client pair_sample 2
           (pair_asleep ++ pair_rest)).
  vm_compute. reflexivity.
Defined.

(** X12. The result does not depend on the interleaving or on the number of
    workers: two runs on the same input against the same client, with any
    schedules and any pool sizes, end with the same items in every field,
    and so print the same summary. *)
Theorem X12_result_is_independent_of_the_schedule
    {Dict : Type} (client : nat -> Script Dict) (sample : list Dict)
    (C1 C2 : nat) (acts1 acts2 : list Action) (s1 s2 : State Dict) :
  run client C1 acts1 (init sample) = Some s1 -> final s1 = true ->
  run client C2 acts2 (init sample) = Some s2 -> final s2 = true ->
  items_of s1 = items_of s2 /\
  items_of s1 = batch_result client sample /\
  summary (items_of s1) = summary (items_of s2).
Proof.
  intros Hrun1 Hfin1 Hrun2 Hfin2.
  assert (HI1 : Inv client C1 sample s1) by (apply reachable_Inv; exists acts1; exact Hrun1).
  assert (HI2 : Inv client C2 sample s2) by (apply reachable_Inv; exists acts2; exact Hrun2).
  rewrite (final_items _ _ _ _ HI1 Hfin1), (final_items _ _ _ _ HI2 Hfin2). auto.
Qed.

(** X12, witness: the two-row sample run by two workers interleaved, and by
    one worker row after row. *)
Lemma X12_witness :
  exists s1 s2,
    run pair_client 2 (pair_asleep ++ pair_rest) (init pair_sample) = Some s1 /\
    run pair_client 1 pair_in_turn (init pair_sample) = Some s2 /\
    items_of s1 = items_of s2 /\
    items_of s1 = batch_result pair_client pair_sample /\
    summary (items_of s1) = summary (items_of s2).
Proof.
  eexists. eexists.
  split; [vm_compute; reflexivity |]. split; [vm_compute; reflexivity |].
  apply (X12_result_is_independent_of_the_schedule pair_client pair_sample 2 1
           (pair_asleep ++ pair_rest) pair_in_turn);
    vm_compute; reflexivity.
Defined.

(** ** The summary block *)

Section SummaryFacts.
Context {Dict : Type}.
Implicit Types (it : BatchItem Dict) (l : list (BatchItem Dict)).





End SummaryFacts.



(** X14. [main] ends with status 0 exactly when the configuration is accepted
    and there is at least one row: a missing, empty or placeholder API key or
    workflow id stops it with status 1 before anything runs, and an empty
    batch ends in status 1 after the three counts, with the division error
    as last line. *)
Theorem X14_exit_status_of_main
    {Dict : Type} (repr : Dict -> string) (client : nat -> Script Dict)
    (sample : list Dict) (C : nat) (acts : list Action) (s : State Dict)
    (api_key workflow_id : option string) :
  run client C acts (init sample) = Some s -> final s = true ->
  (check_config api_key workflow_id = None <->
     exists k w, api_key = Some k /\ workflow_id = Some w /\
                 k <> "" /\ k <> API_KEY_PLACEHOLDER /\
                 w <> "" /\ w <> WORKFLOW_ID_PLACEHOLDER) /\
  (main_exit repr api_key workflow_id (items_of s) = 0 <->
     check_config api_key workflow_id = None /\ sample <> []) /\
  (main_exit repr api_key workflow_id (items_of s) = 0 \/
   main_exit repr api_key workflow_id (items_of s) = 1) /\
  (sample = [] ->
   main_tail repr (items_of s) =
     ([nl; rule; "BATCH PROCESSING SUMMARY" ++ nl; "Total items:  0";
       "Completed:    0"; "Failed:       0"; nl ++ "Error: division by zero"], 1)).
Proof.
  intros Hrun Hfin.
  assert (HI : Inv client C sample s) by (apply reachable_Inv; exists acts; exact Hrun).
  rewrite (final_items _ _ _ _ HI Hfin).
  assert (Hcfg : check_config api_key workflow_id = None <->
     exists k w, api_key = Some k /\ workflow_id = Some w /\
                 k <> "" /\ k <> API_KEY_PLACEHOLDER /\
                 w <> "" /\ w <> WORKFLOW_ID_PLACEHOLDER).
  { unfold check_config. split.
    - destruct api_key as [[| a k] |]; cbn [falsy is_placeholder orb]; try discriminate.
      destruct (String.eqb_spec (String a k) API_KEY_PLACEHOLDER) as [| Hk]; [discriminate |].
      destruct workflow_id as [[| b w] |]; cbn [falsy is_placeholder orb]; try discriminate.
      destruct (String.eqb_spec (String b w) WORKFLOW_ID_PLACEHOLDER) as [| Hw];
        [discriminate |].
      intros _. exists (String a k), (String b w). repeat split; auto; discriminate.
    - intros (k & w & -> & -> & Hk0 & Hk & Hw0 & Hw).
      destruct k as [| a k]; [contradiction |]. cbn [falsy is_placeholder orb].
      destruct (String.eqb_spec (String a k) API_KEY_PLACEHOLDER); [contradiction |].
      destruct w as [| b w]; [contradiction |]. cbn [falsy is_placeholder orb].
      destruct (String.eqb_spec (String b w) WORKFLOW_ID_PLACEHOLDER); [contradiction |].
      reflexivity. }
  assert (Htail : (main_tail repr (batch_result client sample)).2 = 0 <-> sample <> []).
  { unfold main_tail, report, completed_items. rewrite batch_result_length.
    unfold success_rate. destruct sample as [| d ds]; simpl.
    - split; [discriminate | contradiction].
    - split; [discriminate | reflexivity]. }
  split; [exact Hcfg |]. split; [| split].
  - unfold main_exit. destruct (check_config api_key workflow_id).
    + split; [discriminate | intros [H _]; discriminate H].
    + rewrite Htail. tauto.
  - unfold main_exit. destruct (check_config api_key workflow_id); [auto |].
    unfold main_tail. destruct (report repr (batch_result client sample)) as [p [|]]; auto.
  - intros ->. reflexivity.
Qed.

(** X14, witness: a complete run of the two-row sample under an accepted
    configuration. *)
Lemma X14_witness :
  exists s,
    run pair_client 2 (pair_asleep ++ pair_rest) (init pair_sample) = Some s /\
    final s = true /\
    (check_config (Some "fm_live_0123") (Some "wf_42") = None <->
       exists k w, Some "fm_live_0123" = Some k /\ Some "wf_42" = Some w /\
                   k <> "" /\ k <> API_KEY_PLACEHOLDER /\
                   w <> "" /\ w <> WORKFLOW_ID_PLACEHOLDER) /\
    (main_exit (fun _ : Row => "{...}") (Some "fm_live_0123") (Some "wf_42") (items_of s) = 0 <->
       check_config (Some "fm_live_0123") (Some "wf_42") = None /\ pair_sample <> []) /\
    (main_exit (fun _ : Row => "{...}") (Some "fm_live_0123") (Some "wf_42") (items_of s) = 0 \/
     main_exit (fun _ : Row => "{...}") (Some "fm_live_0123") (Some "wf_42") (items_of s) = 1) /\
    (pair_sample = [] ->
     main_tail (fun _ : Row => "{...}") (items_of s) =
       ([nl; rule; "BATCH PROCESSING SUMMARY" ++ nl; "Total items:  0";
         "Completed:    0"; "Failed:       0"; nl ++ "Error: division by zero"], 1)).
Proof.
  eexists. split; [vm_compute; reflexivity |]. split; [vm_compute; reflexivity |].
  apply (X14_exit_status_of_main (fun _ : Row => "{...}") pair_client pair_sample 2
           (pair_asleep ++ pair_rest) _ (Some "fm_live_0123") (Some "wf_42"));
    vm_compute; reflexivity.
Defined.

(** ** The success rate *)

Lemma rate_withinb_sound (c t : nat) :
  rate_withinb c t = true ->
  exists x p, success_rate c t = Some x /\ rate_within c t x p.
Proof.
  unfold rate_withinb, rate_within.
  destruct (success_rate c t) as [x |]; [| discriminate].
  destruct (printed_tenths x) as [p |]; [| discriminate].
  intros H. apply andb_prop in H as [H H4]. apply andb_prop in H as [H H3].
  apply andb_prop in H as [H1 H2].
  apply String.eqb_eq in H1. apply Z.leb_le in H2, H3, H4.
  exists x, p. auto.
Qed.

Lemma rates_checked_sound (n t c : nat) :
  rates_checked n = true -> 1 <= t <= n -> c <= t -> rate_withinb c t = true.
Proof.
  unfold rates_checked. rewrite forallb_forall. intros Hall Ht Hc.
  assert (Hin : In t (seq 1 n)) by (apply in_seq; lia).
  specialize (Hall t Hin). rewrite forallb_forall in Hall.
  apply Hall. apply in_seq. lia.
Qed.

(** The check, run for the batch sizes 1 to 200. *)
Lemma rates_checked_200 : rates_checked 200 = true.
Proof. vm_compute. reflexivity. Qed.

(** X15. For every batch of 1 to 200 items and every number of completed
    items, line 175 prints a rate between 0.0 and 100.0 that is within 0.05
    of the exact percentage, in spite of the two roundings of the floating
    point computation; it prints 100.0 when all items completed and 0.0 when
    none did. *)
Theorem X15_printed_rate_is_accurate (c t : nat) :
  1 <= t <= 200 -> c <= t ->
  exists x p,
    success_rate c t = Some x /\ rate_within c t x p /\
    (c = t -> format_1f x = "100.0") /\
    (c = 0 -> format_1f x = "0.0").
Proof.
  intros Ht Hc.
  pose proof (rates_checked_sound 200 t c rates_checked_200 Ht Hc) as Hb.
  destruct (rate_withinb_sound c t Hb) as (x & p & Hx & Hw).
  exists x, p. split; [exact Hx |]. split; [exact Hw |].
  destruct Hw as (Hfmt & Hp & Hnear).
  split; intros ->.
  - assert (p = 1000%Z) by nia. subst p. rewrite Hfmt. reflexivity.
  - assert (p = 0%Z) by nia. subst p. rewrite Hfmt. reflexivity.
Qed.

(** X15, witness: six of eight. *)
Lemma X15_witness :
  exists x p,
    success_rate 6 8 = Some x /\ rate_within 6 8 x p /\
    (6 = 8 -> format_1f x = "100.0") /\
    (6 = 0 -> format_1f x = "0.0").
Proof.
  apply (X15_printed_rate_is_accurate 6 8); lia.
Defined.
